(** * Product data model of stixcore.products.product

    A shallow embedding of the product engine of [src/stixcore/products/product.py]:
    the registry dispatch of [ProductFactory._check_registered_widget], the merge
    [GenericProduct.__add__], the day split [GenericProduct.split_to_files] and the
    level transitions [L1Mixin.from_level0] / [L2Mixin.from_level1].

    Python objects that are shared by reference (astropy tables, [SCETimeRange]
    objects) live in an explicit store; a product holds references into it, so
    that aliasing between products is visible in the model. *)

From Stdlib Require Import String.
From Stdlib Require Import List ZArith QArith Qround Lia Bool.
From Stdlib Require Import Sorting.Sorted Sorting.Permutation.
Import ListNotations.
Close Scope Q_scope.

(** ** Results: a value or a raised exception *)

Inductive result (E A : Type) : Type :=
| Ok (a : A)
| Err (e : E).
Arguments Ok {E A} a.
Arguments Err {E A} e.

(** ** Registry dispatch ([ProductFactory._check_registered_widget]) *)

Module Registry.

Inductive dispatch_error :=
| NoMatchError
| MultipleMatchError (n_matches : nat).

Section Dispatch.
(** [W]: the registered classes; [Args]: the keyword arguments
    (level, service_type, service_subtype, ssid, control, data, energies). *)
Variables W Args : Type.

(** Candidate classes, in the iteration order of [self.registry]. *)
Definition candidate_widget_types (registry : list (W * (Args -> bool))) (args : Args)
  : list W :=
  map fst (filter (fun e => snd e args) registry).

Definition check_registered_widget (registry : list (W * (Args -> bool)))
    (default_widget_type : option W) (args : Args) : result dispatch_error W :=
  let candidates := candidate_widget_types registry args in
  let n_matches := length candidates in
  let candidates :=
    if Nat.eqb n_matches 0 then
      match default_widget_type with
      | None => Err NoMatchError
      | Some d => Ok [d]
      end
    else if Nat.ltb 1 n_matches then Err (MultipleMatchError n_matches)
    else Ok candidates in
  match candidates with
  | Err e => Err e
  | Ok (w :: _) => Ok w
  | Ok [] => Err NoMatchError   (* unreachable: the list is never empty here *)
  end.
End Dispatch.

End Registry.

(** ** Data model *)

Inductive level := LB | L0 | L1 | L2.

Definition level_eqb (a b : level) : bool :=
  match a, b with
  | LB, LB | L0, L0 | L1, L1 | L2, L2 => true
  | _, _ => false
  end.

(** The product classes of product.py and their method resolution order. *)
Inductive pclass := BaseProduct | GenericProduct | DefaultProduct.

Definition pclass_eqb (a b : pclass) : bool :=
  match a, b with
  | BaseProduct, BaseProduct | GenericProduct, GenericProduct
  | DefaultProduct, DefaultProduct => true
  | _, _ => false
  end.

Definition product_mro (c : pclass) : list pclass :=
  match c with
  | BaseProduct => [BaseProduct]
  | GenericProduct => [GenericProduct; BaseProduct]
  | DefaultProduct => [DefaultProduct; GenericProduct; BaseProduct]
  end.

(** [isinstance(obj, c)] for an object whose class is [c_obj]. *)
Definition isinstance (c_obj c : pclass) : bool :=
  existsb (pclass_eqb c) (product_mro c_obj).

(** A Control row: one telemetry packet.  SCET times are integers in fine ticks. *)
Record crow := mkCrow {
  scet_coarse : Z;
  scet_fine : Z;
  index : nat;
  raw_file : string;
  parent : string }.

(** A Data row: one sample; [values] are the instrument-parameter columns. *)
Record drow := mkDrow {
  time : Z;
  timedel : Z;
  control_index : nat;
  values : list Z }.

Definition set_index (c : crow) (i : nat) : crow :=
  mkCrow (scet_coarse c) (scet_fine c) i (raw_file c) (parent c).

Definition set_parent (c : crow) (p : string) : crow :=
  mkCrow (scet_coarse c) (scet_fine c) (index c) (raw_file c) p.

Definition set_control_index (r : drow) (i : nat) : drow :=
  mkDrow (time r) (timedel r) i (values r).

(** An [SCETimeRange] object. *)
Record time_range := mkRange { tr_start : Z; tr_end : Z }.

(** The integer id columns ([index] of a Control table, [control_index] of a Data
    table) have a numpy unsigned integer dtype, given here by its number of bits
    (8, 16, 32 or 64). *)
Record ctable := mkCTable { index_bits : nat; crows : list crow }.
Record dtable := mkDTable { control_index_bits : nat; drows : list drow }.

(** The heap of shared Python objects: tables and time ranges, by reference. *)
Record store := mkStore {
  controls : list ctable;
  datas : list dtable;
  ranges : list time_range }.

(** A product object: its tables and the ranges of [idb_versions] are references
    into the store; [idb_versions] maps an IDB version to a range reference. *)
Record product := mkProduct {
  p_class : pclass;
  service_type : Z;
  service_subtype : Z;
  ssid : option Z;
  control_ref : nat;
  data_ref : nat;
  idb_versions : list (Z * nat);
  p_level : option level }.

Definition set_level (p : product) (l : option level) : product :=
  mkProduct (p_class p) (service_type p) (service_subtype p) (ssid p)
    (control_ref p) (data_ref p) (idb_versions p) l.

(** The table a dangling reference would read: no rows (never used for the valid
    references of a product). *)
Definition no_ctable : ctable := mkCTable 64 [].
Definition no_dtable : dtable := mkDTable 64 [].

Definition ctable_of (st : store) (p : product) : ctable :=
  nth (control_ref p) (controls st) no_ctable.

Definition dtable_of (st : store) (p : product) : dtable :=
  nth (data_ref p) (datas st) no_dtable.

Definition control_of (st : store) (p : product) : list crow := crows (ctable_of st p).

Definition data_of (st : store) (p : product) : list drow := drows (dtable_of st p).

Definition range_at (st : store) (l : nat) : time_range :=
  nth l (ranges st) (mkRange 0 0).

Fixpoint replace_nth {A} (l : list A) (n : nat) (x : A) : list A :=
  match l, n with
  | [], _ => []
  | _ :: t, O => x :: t
  | y :: t, S n' => y :: replace_nth t n' x
  end.

Definition alloc_control (st : store) (bits : nat) (c : list crow) : store * nat :=
  (mkStore (controls st ++ [mkCTable bits c]) (datas st) (ranges st), length (controls st)).

Definition alloc_data (st : store) (bits : nat) (d : list drow) : store * nat :=
  (mkStore (controls st) (datas st ++ [mkDTable bits d]) (ranges st), length (datas st)).

Definition alloc_range (st : store) (r : time_range) : store * nat :=
  (mkStore (controls st) (datas st) (ranges st ++ [r]), length (ranges st)).

(** Replacing the rows of a table in place; its id column keeps its dtype. *)
Definition set_control (st : store) (l : nat) (c : list crow) : store :=
  mkStore (replace_nth (controls st) l
             (mkCTable (index_bits (nth l (controls st) no_ctable)) c))
    (datas st) (ranges st).

Definition set_data (st : store) (l : nat) (d : list drow) : store :=
  mkStore (controls st)
    (replace_nth (datas st) l
       (mkDTable (control_index_bits (nth l (datas st) no_dtable)) d))
    (ranges st).

Definition set_range (st : store) (l : nat) (r : time_range) : store :=
  mkStore (controls st) (datas st) (replace_nth (ranges st) l r).

(** Storing the Python integer [n] into a [bits]-bit unsigned column
    ([row['index'] = n]): numpy before 1.24 (the code uses [np.float], removed in
    1.24) keeps the low [bits] bits, without an error. *)
Definition to_uint (bits n : nat) : nat := Z.to_nat (Z.of_nat n mod 2 ^ Z.of_nat bits).

(** [np.min_scalar_type] of a non-negative integer: the bits of the smallest unsigned
    dtype that holds it. *)
Definition min_scalar_bits (n : nat) : nat :=
  if (Z.of_nat n <? 2 ^ 8)%Z then 8
  else if (Z.of_nat n <? 2 ^ 16)%Z then 16
  else if (Z.of_nat n <? 2 ^ 32)%Z then 32
  else 64.

(** Every reference held by [p] points into [st]. *)
Definition validb (st : store) (p : product) : bool :=
  Nat.ltb (control_ref p) (length (controls st)) &&
  Nat.ltb (data_ref p) (length (datas st)) &&
  forallb (fun kl => Nat.ltb (snd kl) (length (ranges st))) (idb_versions p).

(** Python dicts as association lists: lookup, and assignment that replaces an
    existing key in place or appends a new one. *)
Fixpoint dict_get {K V} (eqb : K -> K -> bool) (d : list (K * V)) (k : K) : option V :=
  match d with
  | [] => None
  | (k', v) :: t => if eqb k' k then Some v else dict_get eqb t k
  end.

Fixpoint dict_set {K V} (eqb : K -> K -> bool) (d : list (K * V)) (k : K) (v : V)
  : list (K * V) :=
  match d with
  | [] => [(k, v)]
  | (k', v') :: t => if eqb k' k then (k', v) :: t else (k', v') :: dict_set eqb t k v
  end.

(** Modelled from the spec: [SCETimeRange.expand] (module stixcore.time, not in
    src/): "expand(other) enlarges end/start to cover other". *)
Definition expand (r other : time_range) : time_range :=
  mkRange (Z.min (tr_start r) (tr_start other)) (Z.max (tr_end r) (tr_end other)).

Definition covers (big small : time_range) : Prop :=
  (tr_start big <= tr_start small /\ tr_end small <= tr_end big)%Z.

(** Exceptions raised by the product methods. *)
Inductive py_error :=
| TypeError (self_type other_type : pclass)
| IndexError
| KeyError (key : Z)
| AttributeError
| ValueError.

(** ** Time *)

(** SCET fine ticks per second: a time of [coarse] s and [fine] ticks is the
    integer [coarse * MAX_FINE + fine]. *)
Definition MAX_FINE : Z := 65536.

(** [np.around(x, 2)] with [x = a / b], in hundredths: round half to even. *)
Definition round_half_even (a b : Z) : Z :=
  let q := (a / b)%Z in
  let r := (a mod b)%Z in
  (if 2 * r <? b then q
   else if b <? 2 * r then q + 1
   else if Z.even q then q else q + 1)%Z.

(** [data['time_float'] = np.around(data['time'].as_float().value, 2)], in hundredths
    of a second. *)
Definition time_float (r : drow) : Z := round_half_even (100 * time r)%Z MAX_FINE.

(** [GenericProduct.scet_timerange]: [data['time'][0]] and [data['time'][-1]] raise
    [IndexError] on an empty Data table. *)
Definition scet_timerange (d : list drow) : option (Q * Q) :=
  match d with
  | [] => None
  | r0 :: _ =>
      let rl := last d r0 in
      Some ((inject_Z (time r0) - inject_Z (timedel r0) / inject_Z 2)%Q,
            (inject_Z (time rl) + inject_Z (timedel rl) / inject_Z 2)%Q)
  end.

(** ** Table operations *)

(** Stable sort on an integer key (the astropy [group_by] uses a mergesort). *)
Fixpoint insert_by {A} (key : A -> Z) (x : A) (l : list A) : list A :=
  match l with
  | [] => [x]
  | y :: t => if (key x <=? key y)%Z then x :: l else y :: insert_by key x t
  end.

Fixpoint sort_by {A} (key : A -> Z) (l : list A) : list A :=
  match l with
  | [] => []
  | x :: t => insert_by key x (sort_by key t)
  end.

(** Keep the first row of each group of equal keys of a sorted table. *)
Fixpoint first_of_groups {A} (key : A -> Z) (prev : option Z) (l : list A) : list A :=
  match l with
  | [] => []
  | x :: t =>
      match prev with
      | Some p => if (p =? key x)%Z then first_of_groups key prev t
                  else x :: first_of_groups key (Some (key x)) t
      | None => x :: first_of_groups key (Some (key x)) t
      end
  end.

(** [astropy.table.unique(t, keys=[key])] with [keep='first']: group by the key
    (stable sort), then keep the first row of every group.  On a column of numbers
    this is also [np.unique]. *)
Definition unique_by {A} (key : A -> Z) (l : list A) : list A :=
  first_of_groups key None (sort_by key l).

Definition list_min (l : list nat) : nat :=
  match l with
  | [] => 0
  | x :: t => fold_left Nat.min t x
  end.

(** ** Merge ([GenericProduct.__add__]) *)

(** The [old_index] column: [f"s{i}"] for rows of [self], [f"o{i}"] for rows of [other]. *)
Inductive old_index := OSelf (i : nat) | OOther (i : nat).

Definition old_index_eqb (a b : old_index) : bool :=
  match a, b with
  | OSelf i, OSelf j | OOther i, OOther j => Nat.eqb i j
  | _, _ => false
  end.

Definition tag_control (mk : nat -> old_index) (c : list crow) : list (old_index * crow) :=
  map (fun r => (mk (index r), r)) c.

Definition tag_data (mk : nat -> old_index) (d : list drow) : list (old_index * drow) :=
  map (fun r => (mk (control_index r), r)) d.

Definition tkey (p : old_index * drow) : Z := time_float (snd p).

Definition ckey (p : old_index * crow) : Z := Z.of_nat (index (snd p)).

(** [for row in data: ... newids[oid] = len(newids) ...; row['control_index'] = nid]:
    [newids] holds Python integers; the Data [control_index] column has [bits] bits. *)
Fixpoint renumber (bits : nat) (newids : list (old_index * nat))
    (rows : list (old_index * drow))
  : list (old_index * nat) * list (old_index * drow) :=
  match rows with
  | [] => (newids, [])
  | (oid, r) :: rest =>
      let newids :=
        match dict_get old_index_eqb newids oid with
        | Some _ => newids
        | None => dict_set old_index_eqb newids oid (length newids)
        end in
      let nid := match dict_get old_index_eqb newids oid with Some n => n | None => 0 end in
      let (final, rest') := renumber bits newids rest in
      (final, (oid, set_control_index r (to_uint bits nid)) :: rest')
  end.

(** [for idx, row in enumerate(control): ...]: rows whose [old_index] is not used
    any more are deleted, the others get their new index, stored in the [bits]-bit
    [index] column. *)
Fixpoint update_control (bits : nat) (newids : list (old_index * nat))
    (rows : list (old_index * crow)) : list (old_index * crow) :=
  match rows with
  | [] => []
  | (oid, c) :: rest =>
      match dict_get old_index_eqb newids oid with
      | None => update_control bits newids rest
      | Some nid => (oid, set_index c (to_uint bits nid)) :: update_control bits newids rest
      end
  end.

(** The table part of [__add__]; [self_first] is
    [self.scet_timerange.start <= other.scet_timerange.start], [ibits] and [cbits]
    the dtypes of the stacked [index] and [control_index] columns. *)
Definition combine_tables (ibits cbits : nat) (self_control : list crow) (self_data : list drow)
    (other_control : list crow) (other_data : list drow) (self_first : bool)
  : list crow * list drow :=
  let control := tag_control OSelf self_control ++ tag_control OOther other_control in
  let data := if self_first
              then tag_data OSelf self_data ++ tag_data OOther other_data
              else tag_data OOther other_data ++ tag_data OSelf self_data in
  let data := unique_by tkey data in
  let data := sort_by tkey data in
  let (newids, data) := renumber cbits [] data in
  let control := update_control ibits newids control in
  let control := sort_by ckey control in
  (map snd control, map snd data).

Section Engine.

(** The range a [defaultdict(SCETimeRange)] creates for a missing key
    ([SCETimeRange()], module stixcore.time). *)
Variable default_range : time_range.

(** "fake a deep clone of the timings": one new range object per key of [self]. *)
Fixpoint copy_idb (st : store) (src acc : list (Z * nat)) : store * list (Z * nat) :=
  match src with
  | [] => (st, acc)
  | (k, l) :: rest =>
      let r := range_at st l in
      let (st1, nl) := alloc_range st (mkRange (tr_start r) (tr_end r)) in
      copy_idb st1 rest (dict_set Z.eqb acc k nl)
  end.

(** [for idb_key, date_range in other.idb_versions.items():
       idb_versions[idb_key].expand(date_range)] *)
Fixpoint expand_idb (st : store) (acc other : list (Z * nat)) : store * list (Z * nat) :=
  match other with
  | [] => (st, acc)
  | (k, l) :: rest =>
      let '(st1, acc1, target) :=
        match dict_get Z.eqb acc k with
        | Some t => (st, acc, t)
        | None => let (st1, t) := alloc_range st default_range in (st1, acc ++ [(k, t)], t)
        end in
      let st2 := set_range st1 target (expand (range_at st1 target) (range_at st1 l)) in
      expand_idb st2 acc1 rest
  end.

(** [vstack] gives a stacked unsigned column the wider of the two dtypes.  The
    final [type(self)(...)] passes [self]'s own service type, which
    [DefaultProduct.__init__] already accepted when [self] was built. *)
Definition add (st : store) (self other : product) : result py_error (store * product) :=
  if negb (isinstance (p_class other) (p_class self))
  then Err (TypeError (p_class self) (p_class other))
  else
    match scet_timerange (data_of st self), scet_timerange (data_of st other) with
    | Some (self_start, _), Some (other_start, _) =>
        let ibits := Nat.max (index_bits (ctable_of st self)) (index_bits (ctable_of st other)) in
        let cbits := Nat.max (control_index_bits (dtable_of st self))
                       (control_index_bits (dtable_of st other)) in
        let '(control, data) :=
          combine_tables ibits cbits (control_of st self) (data_of st self)
            (control_of st other) (data_of st other) (Qle_bool self_start other_start) in
        let '(st1, idb0) := copy_idb st (idb_versions self) [] in
        let '(st2, idb) := expand_idb st1 idb0 (idb_versions other) in
        let '(st3, cref) := alloc_control st2 ibits control in
        let '(st4, dref) := alloc_data st3 cbits data in
        Ok (st4, mkProduct (p_class self) (service_type self) (service_subtype self)
                   (ssid self) cref dref idb (p_level self))
    | _, _ => Err IndexError
    end.

End Engine.

(** ** Split ([GenericProduct.split_to_files]) *)

Section Split.

(** Time service: [SCETime.get_scedays], the instrument-clock day number of an SCET
    time, and the day number of the UTC calendar date of an SCET instant. *)
Variable get_scedays : Z -> Z.
Variable utc_date : Q -> Z.

(** [(days >= ds) & (days < ds + 1)].  For the UTC branch, [utc_times >= ds] and
    [utc_times < ds + 1 day] with [ds] the midnight of date [day] compare the
    date number of the instant with [day] in the same way. *)
Definition in_day (ds s : Z) : bool := ((ds <=? s) && (s <? ds + 1))%Z.

(** One fragment from the selected Data rows [data = self.data[i]]. *)
Definition make_fragment (self_control : list crow) (data : list drow)
  : list crow * list drow :=
  let control_indices := unique_by Z.of_nat (map control_index data) in
  let control := filter (fun c => existsb (Nat.eqb (index c)) control_indices) self_control in
  let control_index_min := list_min control_indices in
  (map (fun c => set_index c (index c - control_index_min)) control,
   map (fun r => set_control_index r (control_index r - control_index_min)) data).

(** The loop [for day in days: ... if len(i[0]) > 0: ... yield out]. *)
Fixpoint fragments (day_of : drow -> Z) (days : list Z) (self_control : list crow)
    (self_data : list drow) : list (Z * (list crow * list drow)) :=
  match days with
  | [] => []
  | day :: rest =>
      let data := filter (fun r => in_day day (day_of r)) self_data in
      match data with
      | [] => fragments day_of rest self_control self_data
      | _ :: _ => (day, make_fragment self_control data)
                  :: fragments day_of rest self_control self_data
      end
  end.

(** [TimeRange.get_dates()]: every date from the start date to the end date. *)
Definition get_dates (start_day end_day : Z) : list Z :=
  map (fun i => (start_day + Z.of_nat i)%Z) (seq 0 (Z.to_nat (end_day - start_day + 1))).

Definition is_L0 (l : option level) : bool :=
  match l with Some L0 => true | _ => false end.

(** The fragments' tables, with the [day] each one was yielded for. *)
Definition split_tables (lvl : option level) (self_control : list crow)
    (self_data : list drow) : result py_error (list (Z * (list crow * list drow))) :=
  if is_L0 lvl then
    let day_of := fun r => get_scedays (time r) in
    let days := unique_by (fun d => d) (map day_of self_data) in
    Ok (fragments day_of days self_control self_data)
  else
    match scet_timerange self_data with
    | None => Err IndexError
    | Some (s, e) =>
        let day_of := fun r => utc_date (inject_Z (time r)) in
        Ok (fragments day_of (get_dates (utc_date s) (utc_date e)) self_control self_data)
    end.

(** The day a Data row is selected for: its instrument day for L0, the UTC date of
    its time above L0. *)
Definition day_key (lvl : option level) (r : drow) : Z :=
  if is_L0 lvl then get_scedays (time r) else utc_date (inject_Z (time r)).

(** The dtypes of the fragment's [control['index'] - control_index_min] and
    [data['control_index'] - control_index_min]: numpy before 2.0 promotes a column
    and a scalar to the column's dtype when the scalar's value fits in it, and to the
    scalar's smallest dtype otherwise. *)
Definition fragment_bits (lvl : option level) (self_control : ctable) (self_data : dtable)
    (day : Z) : nat * nat :=
  let data := filter (fun r => in_day day (day_key lvl r)) (drows self_data) in
  let control_index_min := list_min (unique_by Z.of_nat (map control_index data)) in
  (Nat.max (index_bits self_control) (min_scalar_bits control_index_min),
   Nat.max (control_index_bits self_data) (min_scalar_bits control_index_min)).

(** Each fragment becomes a new product of the same class, with new tables and
    [idb_versions=self.idb_versions]; [bits day] are the dtypes of the fragment of
    [day].  [type(self)(...)] passes [self]'s own service type, which
    [DefaultProduct.__init__] already accepted when [self] was built. *)
Fixpoint emit (st : store) (self : product) (bits : Z -> nat * nat)
    (frags : list (Z * (list crow * list drow))) : store * list (Z * product) :=
  match frags with
  | [] => (st, [])
  | (day, (c, d)) :: rest =>
      let '(st1, cref) := alloc_control st (fst (bits day)) c in
      let '(st2, dref) := alloc_data st1 (snd (bits day)) d in
      let out := mkProduct (p_class self) (service_type self) (service_subtype self)
                   (ssid self) cref dref (idb_versions self) (p_level self) in
      let '(st3, outs) := emit st2 self bits rest in
      (st3, (day, out) :: outs)
  end.

(** The generator, run to its end; an exception ends it before any fragment. *)
Definition split_to_files (st : store) (self : product)
  : result py_error (store * list (Z * product)) :=
  match split_tables (p_level self) (control_of st self) (data_of st self) with
  | Err e => Err e
  | Ok frags =>
      Ok (emit st self (fragment_bits (p_level self) (ctable_of st self) (dtable_of st self))
            frags)
  end.

End Split.

(** A Data row without its [control_index], which each fragment renumbers. *)
Definition payload (r : drow) : Z * Z * list Z := (time r, timedel r, values r).

(** ** Level transitions *)

(** [DefaultProduct.service_name_map] *)
Definition service_name_map : list (Z * string) :=
  [(1, "tc-verify"); (5, "events"); (6, "memory"); (9, "time"); (17, "conn-test");
   (20, "info-dist"); (22, "context"); (236, "config"); (237, "params");
   (238, "archive"); (239, "diagnostics"); (300, "low-latency")]%Z%string.

(** [self.service_name_map[service_type]] does not raise. *)
Definition default_buildable (service_type : Z) : bool :=
  match dict_get Z.eqb service_name_map service_type with Some _ => true | None => false end.

(** A product object of class [p_class p] with service type [service_type p] can be
    constructed: [DefaultProduct.__init__] looks the service type up in
    [service_name_map], [GenericProduct.__init__] checks nothing, and [BaseProduct]
    has no constructor taking these keywords. *)
Definition buildable (p : product) : bool :=
  match p_class p with
  | DefaultProduct => default_buildable (service_type p)
  | GenericProduct => true
  | BaseProduct => false
  end.

Section Levels.

(** [engineering.raw_to_engineering_product(l1, IDBManager.instance)]: converts the
    product's Data table in place. *)
Variable raw_to_engineering_product : list drow -> list drow.

(** [cls(service_type=p.service_type, service_subtype=p.service_subtype,
    ssid=p.ssid, control=p.control, data=p.data, idb_versions=p.idb_versions)] in
    [cls.from_level0] and [cls.from_level1].  Of the classes of product.py only
    [DefaultProduct] mixes in [L1Mixin] and [L2Mixin]; for the others the lookup of the
    method raises [AttributeError].  [DefaultProduct.__init__] sets [level] to 'L0'
    (no [level] keyword is passed) and ends with
    [self.type = f'{self.service_name_map[service_type]}'], a [KeyError] for a service
    type the map lacks.  The new object holds the same table references. *)
Definition new_from (cls : pclass) (p : product) : result py_error product :=
  match cls with
  | DefaultProduct =>
      if default_buildable (service_type p)
      then Ok (mkProduct DefaultProduct (service_type p) (service_subtype p) (ssid p)
                 (control_ref p) (data_ref p) (idb_versions p) (Some L0))
      else Err (KeyError (service_type p))
  | _ => Err AttributeError
  end.

(** [l.control.replace_column('parent', [parent] * len(l.control))]. *)
Definition replace_parent (st : store) (p : product) (name : string) : store :=
  set_control st (control_ref p) (map (fun c => set_parent c name) (control_of st p)).

(** [L1Mixin.from_level0]; an exception of [cls(...)] is raised before any table is
    touched. *)
Definition from_level0 (cls : pclass) (st : store) (l0product : product) (parent : string)
  : result py_error (store * product) :=
  match new_from cls l0product with
  | Err e => Err e
  | Ok l1 =>
      let st1 := replace_parent st l1 parent in
      let l1 := set_level l1 (Some L1) in
      let st2 := set_data st1 (data_ref l1) (raw_to_engineering_product (data_of st1 l1)) in
      Ok (st2, l1)
  end.

End Levels.

(** The [parent] argument of [from_level1]: a name or a [Path]. *)
Inductive parent_arg := PStr (s : string) | PPath (dir name : string).

Definition parent_name (p : parent_arg) : string :=
  match p with PStr s => s | PPath _ n => n end.

(** [L2Mixin.from_level1]; the copy of the FITS header onto [l2] is left out. *)
Definition from_level1 (cls : pclass) (st : store) (l1product : product) (parent : parent_arg)
  : result py_error (store * list product) :=
  match new_from cls l1product with
  | Err e => Err e
  | Ok l2 =>
      let st1 := replace_parent st l2 (parent_name parent) in
      let l2 := set_level l2 (Some L2) in
      Ok (st1, [l2])
  end.

Arguments Registry.candidate_widget_types {W Args}.
Arguments Registry.check_registered_widget {W Args}.

(** ** Concrete inputs *)

Module Inputs.
Local Open Scope Z_scope.

(** One SCET day in fine ticks. *)
Definition DAY : Z := 86400 * MAX_FINE.

(** Instrument-clock day of an SCET time and UTC date number of an instant, for an
    epoch at day 0. *)
Definition sceday_of (t : Z) : Z := t / DAY.
Definition utc_date_of (q : Q) : Z := Qfloor (q / inject_Z DAY).

Definition row (t : Z) (ci : nat) (v : Z) : drow := mkDrow t 0 ci [v].
Definition packet (i : nat) (name : string) : crow := mkCrow 0 0 i name "parent.fits".

(** An L0 product with two packets, one sample each. *)
Definition l0_control : list crow := [packet 0 "raw_0.bin"; packet 1 "raw_1.bin"].
Definition l0_data : list drow := [row 0 0 10; row 65536 1 11].
Definition l0_store : store := mkStore [mkCTable 8 l0_control] [mkDTable 8 l0_data] [mkRange 0 65536].
Definition l0_product : product :=
  mkProduct DefaultProduct 6 6 (Some 30) 0 0 [(2, 0%nat)] (Some L0).

(** Two products of different classes; the second one has an empty Data table. *)
Definition mixed_store : store :=
  mkStore [mkCTable 8 l0_control; mkCTable 8 l0_control] [mkDTable 8 l0_data; mkDTable 8 []]
    [mkRange 0 65536].
Definition generic_product : product :=
  mkProduct GenericProduct 21 6 (Some 30) 0 0 [(2, 0%nat)] (Some L0).
Definition default_product : product :=
  mkProduct DefaultProduct 6 6 (Some 30) 0 0 [] (Some L0).
Definition empty_generic_product : product :=
  mkProduct GenericProduct 21 6 (Some 30) 1 1 [] (Some L0).

(** Three products of one class to merge: the scenario of the specification
    (samples at 0.0 s and 1.0 s against 0.5 s and 2.0 s), and a third product with
    one sample at 3.0 s. *)
Definition merge_store : store :=
  mkStore [mkCTable 8 [packet 0 "a.bin"]; mkCTable 8 [packet 0 "b.bin"]; mkCTable 8 [packet 0 "c.bin"]]
    [mkDTable 8 [row 0 0 1; row 65536 0 2]; mkDTable 8 [row 32768 0 3; row 131072 0 4];
     mkDTable 8 [row 196608 0 5]]
    [mkRange 0 65536; mkRange 32768 131072; mkRange 196608 196608].
Definition prod_a : product := mkProduct GenericProduct 21 6 (Some 30) 0 0 [(2, 0%nat)] (Some L1).
Definition prod_b : product := mkProduct GenericProduct 21 6 (Some 30) 1 1 [(2, 1%nat)] (Some L1).
Definition prod_c : product := mkProduct GenericProduct 21 6 (Some 30) 2 2 [(3, 2%nat)] (Some L1).

(** A sample at the start of day [d]. *)
Definition day_row (d : Z) (ci : nat) (v : Z) : drow := row (d * DAY) ci v.

Definition three_packets : list crow :=
  [packet 0 "raw_0.bin"; packet 1 "raw_1.bin"; packet 2 "raw_2.bin"].

(** An L0 product with samples on instrument days 100, 101 and 103. *)
Definition days3_store : store :=
  mkStore [mkCTable 8 three_packets]
    [mkDTable 8 [day_row 100 0 1; day_row 101 1 2; day_row 103 2 3]] [].
Definition days3_product : product := mkProduct DefaultProduct 6 6 (Some 30) 0 0 [] (Some L0).

(** An L0 product whose packet 0 has samples on days 100 and 101 while packets 1
    and 2 have one sample each, on days 100 and 101. *)
Definition gap_store : store :=
  mkStore [mkCTable 8 three_packets]
    [mkDTable 8 [day_row 100 0 1; row (100 * DAY + 1) 1 2; day_row 101 0 3;
                 row (101 * DAY + 1) 2 4]] [].
Definition gap_product : product := days3_product.

(** An L1 product whose Data rows (days 5, 3, 6) are not sorted by time. *)
Definition unsorted_store : store :=
  mkStore [mkCTable 8 three_packets] [mkDTable 8 [day_row 5 0 1; day_row 3 1 2; day_row 6 2 3]] [].
(** The same rows sorted by time. *)
Definition sorted_store : store :=
  mkStore [mkCTable 8 three_packets] [mkDTable 8 [day_row 3 1 2; day_row 5 0 1; day_row 6 2 3]] [].
Definition l1_product : product := mkProduct GenericProduct 21 6 (Some 30) 0 0 [] (Some L1).



End Inputs.

(** ** Auxiliary predicates *)

Section KeyOrder.
Context {A : Type} (key : A -> Z).

Definition kle (a b : A) : Prop := (key a <= key b)%Z.
Definition klt (a b : A) : Prop := (key a < key b)%Z.

(** The first element with key [k]. *)
Definition first_with (k : Z) (l : list A) : option A :=
  find (fun y => (key y =? k)%Z) l.
End KeyOrder.

(** A tagged Data row without its [control_index]. *)
Definition forget_ci (p : old_index * drow) : old_index * drow :=
  (fst p, set_control_index (snd p) 0).

Definition ids_dense (ids : list (old_index * nat)) : Prop :=
  map snd ids = seq 0 (length ids) /\ NoDup (map fst ids).

(** Every [control_index] of the Data table is an [index] of the Control table. *)
Definition refint (c : list crow) (d : list drow) : Prop :=
  forall r, In r d -> In (control_index r) (map index c).

(** The (time, value) pairs of a Data table. *)
Definition content (d : list drow) : list (Z * list Z) := map (fun r => (time r, values r)) d.

(** [r] is the first row of [l] with its rounded time key. *)
Definition first_of_key (l : list drow) (r : drow) : Prop :=
  first_with time_float (time_float r) l = Some r.

(** No row of [l1] has the same rounded time key as a row of [l2]. *)
Definition keys_disjoint (l1 l2 : list drow) : Prop :=
  forall r1 r2, In r1 l1 -> In r2 l2 -> time_float r1 <> time_float r2.

(** The (time, value) pairs of the first rows of each rounded time key of [l]. *)
Definition first_rows_content (l : list drow) (x : Z * list Z) : Prop :=
  exists r, first_of_key l r /\ (time r, values r) = x.

(** The precondition under which every Data row of [P] falls into one of the days
    the split engine walks through: any L0 product; above L0, non-empty Data sorted
    by time with non-negative sample durations. *)
Definition split_pre (lvl : option level) (data : list drow) : Prop :=
  is_L0 lvl = true \/
  (Sorted Z.le (map time data) /\ (forall r, In r data -> (0 <= timedel r)%Z) /\ data <> []).

(** A boolean test of [Sorted Z.le]. *)
Fixpoint sorted_check (l : list Z) : bool :=
  match l with
  | x :: (y :: _) as t => (x <=? y)%Z && sorted_check t
  | _ => true
  end.

(** ** Parent and raw file names ([GenericProduct.parent], [GenericProduct.raw]) *)

(** [np.unique] on a column of strings: the distinct values in increasing order.
    numpy orders strings by code points, as [String.compare] does on ASCII text. *)
Fixpoint insert_str (x : string) (l : list string) : list string :=
  match l with
  | [] => [x]
  | y :: t => if String.leb x y then x :: l else y :: insert_str x t
  end.

Fixpoint sort_str (l : list string) : list string :=
  match l with
  | [] => []
  | x :: t => insert_str x (sort_str t)
  end.

Fixpoint dedup_sorted (l : list string) : list string :=
  match l with
  | x :: ((y :: _) as t) => if String.eqb x y then dedup_sorted t else x :: dedup_sorted t
  | _ => l
  end.

Definition np_unique (l : list string) : list string := dedup_sorted (sort_str l).

(** The strict and non-strict orders of [String.compare] and [String.leb]. *)
Definition str_lt (a b : string) : Prop := String.compare a b = Lt.

Definition str_le (a b : string) : Prop := String.leb a b = true.

(** [np.unique(self.control['raw_file']).tolist()] *)
Definition product_raw (st : store) (self : product) : list string :=
  np_unique (map raw_file (control_of st self)).

(** [np.unique(self.control['parent']).tolist()] *)
Definition product_parent (st : store) (self : product) : list string :=
  np_unique (map parent (control_of st self)).

(** ** [GenericProduct.find_parent_files] *)

Section ParentFiles.

(** [(Path(root) / p_level).rglob(pfile)]: the paths found under the directory
    [p_level] of [root] for the pattern [pfile]. *)
Variable path : Type.
Variable rglob : string -> string -> string -> list path.

(** [p_level = 'LB'; if self.level == 'L2': p_level = 'L1'
    elif self.level == 'L1': p_level = 'L0'] *)
Definition parent_level_dir (lvl : option level) : string :=
  match lvl with
  | Some L2 => "L1"
  | Some L1 => "L0"
  | _ => "LB"
  end.

Definition find_parent_files (st : store) (self : product) (root : string) : list path :=
  match p_level self with
  | Some LB => []
  | lvl => concat (map (rglob root (parent_level_dir lvl)) (product_parent st self))
  end.

End ParentFiles.

(** ** FITS headers of level products ([FitsHeaderMixin]) *)

Section Headers.

(** [fits.Header] objects, and [val.copy(strip=True)]. *)
Variable header : Type.
Variable copy_strip : header -> header.

(** A product object with its [fits_header] property: [None] when [_fits_header]
    was never set. *)
Record hproduct := mkHProduct {
  hp_product : product;
  hp_fits_header : option header }.

(** The [fits_header] setter; [None] is not a [fits.Header]:
    [ValueError("fits_header should be of type fits.Header")]. *)
Definition set_fits_header (val : option header) : result py_error (option header) :=
  match val with
  | None => Err ValueError
  | Some h => Ok (Some (copy_strip h))
  end.

(** [L1Mixin.from_level0]: [cls(...)] creates a new object, which has no
    [_fits_header]. *)
Definition from_level0_obj (raw_to_engineering_product : list drow -> list drow)
    (cls : pclass) (st : store) (l0product : hproduct) (parent : string)
  : result py_error (store * hproduct) :=
  match from_level0 raw_to_engineering_product cls st (hp_product l0product) parent with
  | Err e => Err e
  | Ok (st', l1) => Ok (st', mkHProduct l1 None)
  end.

(** [L2Mixin.from_level1] with its step [l2.fits_header = l1product.fits_header],
    which runs after the [parent] column has been replaced: that exception leaves the
    store as changed so far, while an exception of [cls(...)] comes before any change. *)
Definition from_level1_obj (cls : pclass) (st : store) (l1product : hproduct)
    (parent : parent_arg) : store * result py_error (list hproduct) :=
  match from_level1 cls st (hp_product l1product) parent with
  | Err e => (st, Err e)
  | Ok (st', l2s) =>
      match set_fits_header (hp_fits_header l1product) with
      | Err e => (st', Err e)
      | Ok h => (st', Ok (map (fun l2 => mkHProduct l2 h) l2s))
      end
  end.

End Headers.

Arguments hp_product {header}.
Arguments hp_fits_header {header}.
Arguments mkHProduct {header}.
Arguments from_level0_obj {header}.
Arguments from_level1_obj {header}.

(** [FitsHeaderMixin.get_additional_header_keywords] and
    [add_additional_header_keywords]: the attribute [_additional_header_keywords] is
    absent ([None]) until the first call to [add_additional_header_keywords] creates
    the list, to which every call appends its keyword. *)
Section HeaderKeywords.
Variable keyword : Type.

Definition get_additional_header_keywords (attr : option (list keyword))
  : option (list keyword) := attr.

Definition add_additional_header_keywords (attr : option (list keyword)) (kw : keyword)
  : option (list keyword) :=
  let l := match attr with None => [] | Some l => l end in
  Some (l ++ [kw]).

End HeaderKeywords.

Arguments get_additional_header_keywords {keyword}.
Arguments add_additional_header_keywords {keyword}.

(** ** Time stamps of [ControlSci.from_packets] *)

(** [if np.any(control['time_stamp'] > 2 ** 32 - 1): coarse = time_stamp >> 16;
    fine = time_stamp & (1 << 16) - 1 else: coarse = time_stamp; fine = 0] *)
Definition split_time_stamps (ts : list Z) : list (Z * Z) :=
  if existsb (fun t => (2 ^ 32 - 1 <? t)%Z) ts
  then map (fun t => (Z.shiftr t 16, Z.land t (Z.shiftl 1 16 - 1))) ts
  else map (fun t => (t, 0%Z)) ts.

(** [SCETime(coarse, fine)] in fine ticks. *)
Definition scet_ticks (cf : Z * Z) : Z := (fst cf * MAX_FINE + snd cf)%Z.

(** ** Pipeline command line ([stixcore.processing.pipeline_cli]) *)

Module Cli.

(** [class ProductLevel(Enum)] *)
Inductive ProductLevel := TM | LB | L0 | L1 | L2 | ALL.

Definition value (e : ProductLevel) : Z :=
  match e with TM => -2 | LB => -1 | L0 => 0 | L1 => 1 | L2 => 2 | ALL => 100 end.

(** [e.name], which [__str__] returns. *)
Definition name (e : ProductLevel) : string :=
  match e with
  | TM => "TM" | LB => "LB" | L0 => "L0" | L1 => "L1" | L2 => "L2" | ALL => "ALL"
  end.

(** [for e in ProductLevel]: the members in definition order. *)
Definition members : list ProductLevel := [TM; LB; L0; L1; L2; ALL].

Definition pl_eqb (a b : ProductLevel) : bool := Z.eqb (value a) (value b).

(** [str.upper] on ASCII text. *)
Definition upper_char (c : Ascii.ascii) : Ascii.ascii :=
  let n := Ascii.nat_of_ascii c in
  if Nat.leb 97 n && Nat.leb n 122 then Ascii.ascii_of_nat (n - 32) else c.

Fixpoint upper (s : string) : string :=
  match s with
  | EmptyString => EmptyString
  | String c t => String (upper_char c) (upper t)
  end.

(** [ProductLevel.from_str] *)
Definition from_str (label : string) : ProductLevel :=
  let label := upper label in
  match find (fun e => String.eqb (name e) label) members with
  | Some e => e
  | None => TM
  end.

(** The exceptions [main] lets through: its own [ValueError] for the level order, and
    one raised by a callee. *)
Inductive cli_error (exn : Type) := ValueError | Raised (e : exn).
Arguments ValueError {exn}.
Arguments Raised {exn}.

(** The calls of [main] that read or write files. *)
Inductive call :=
| SocGetFiles (filter : option string)  (* [soc.get_files(tmtc=TMTC.All if FILTER is None else FILTER)] *)
| TmtcToLevelBinary                     (* [process_tmtc_to_levelbinary(tmfiles, ...)] *)
| Rglob (dir : ProductLevel) (pattern : string)  (* [(fitsdir / dir).rglob(pattern)] *)
| ProcessFitsFiles (lvl : ProductLevel).  (* [l0_proc], [l1_proc], [l2_proc].process_fits_files *)

(** [not FILTER] is false, and [FILTER = "*.fits"] when it is true. *)
Definition filter_or_fits (F : option string) : string :=
  match F with
  | Some s => if String.eqb s "" then "*.fits" else s
  | None => "*.fits"
  end.

Section Main.

Variables file tmfile exn : Type.
(** [input_files]: the existing paths of the [--input_files] list that match the
    filter. *)
Variable input_files : list file.
(** With input files, line 220 reads [tmfiles = [SOCPacketFile(f) in input_files]]:
    [f] is the list file object of the [with open(args.input_files, "r") as f] block
    (closed by then), and the list holds one element, the result of the membership
    test.  [SOCPacketFile] is defined outside this package: the value of the test, or
    the exception raised while evaluating it. *)
Variable packet_file_in_input_files : result exn bool.
(** [process_tmtc_to_levelbinary(tmfiles, archive_path=fitsdir)] on that one-element
    list of booleans: its files, or the exception it raises. *)
Variable process_tmtc_flags : list bool -> result exn (list file).
Variable soc_get_files : option string -> list tmfile.
Variable process_tmtc_to_levelbinary : list tmfile -> list file.
Variable rglob : ProductLevel -> string -> list file.
Variable process_fits_files : ProductLevel -> list file -> list file.

(** [processed_files = defaultdict(list)]: reading a missing key inserts it. *)
Definition pf_touch (pf : list (ProductLevel * list file)) (k : ProductLevel)
  : list (ProductLevel * list file) :=
  match dict_get pl_eqb pf k with
  | Some _ => pf
  | None => pf ++ [(k, [])]
  end.

Definition pf_get (pf : list (ProductLevel * list file)) (k : ProductLevel) : list file :=
  match dict_get pl_eqb pf k with Some v => v | None => [] end.

(** [processed_files[k].extend(xs)] *)
Definition pf_extend (pf : list (ProductLevel * list file)) (k : ProductLevel) (xs : list file)
  : list (ProductLevel * list file) :=
  let pf := pf_touch pf k in
  dict_set pl_eqb pf k (pf_get pf k ++ xs).

Record state := mkState {
  processed_files : list (ProductLevel * list file);
  FILTER : option string;
  calls : list call }.

(** [has_input_files = len(input_files) > 0] *)
Definition has_input_files : bool := Nat.ltb 0 (length input_files).

(** [if ProductLevel.LB.value >= args.start_level.value: ...] *)
Definition tm_stage (start : ProductLevel) (s : state) : result (cli_error exn) state :=
  if (value LB >=? value start)%Z then
    let pf := pf_touch (processed_files s) LB in
    if has_input_files then
      match packet_file_in_input_files with
      | Err e => Err (Raised e)
      | Ok b =>
          match process_tmtc_flags [b] with
          | Err e => Err (Raised e)
          | Ok out => Ok (mkState (pf_extend pf LB out) None (calls s ++ [TmtcToLevelBinary]))
          end
      end
    else
      let tmfiles := soc_get_files (FILTER s) in
      Ok (mkState (pf_extend pf LB (process_tmtc_to_levelbinary tmfiles)) None
            (calls s ++ [SocGetFiles (FILTER s); TmtcToLevelBinary]))
  else Ok s.

(** [if args.start_level == lvl: ...]: the inputs of the stage [lvl], read from
    the directory of the level [below]. *)
Definition load_stage (lvl below start : ProductLevel) (s : state) : state :=
  if pl_eqb start lvl then
    let F := filter_or_fits (FILTER s) in
    if has_input_files
    then mkState (pf_extend (processed_files s) below input_files) (Some F) (calls s)
    else mkState (pf_extend (processed_files s) below (rglob below F)) (Some F)
           (calls s ++ [Rglob below F])
  else s.

(** [if lvl.value >= start.value and end.value >= lvl.value:
     processed_files[lvl].extend(proc.process_fits_files(files=processed_files[below]))] *)
Definition process_stage (lvl below start end_ : ProductLevel) (s : state) : state :=
  if (value lvl >=? value start)%Z && (value end_ >=? value lvl)%Z then
    let pf := pf_touch (processed_files s) lvl in
    let pf := pf_touch pf below in
    let out := process_fits_files lvl (pf_get pf below) in
    mkState (pf_extend pf lvl out) None (calls s ++ [ProcessFitsFiles lvl])
  else s.

(** The processing part of [main], from the level check to the last stage. *)
Definition main (start end_ : ProductLevel) (filter : option string)
  : result (cli_error exn) state :=
  if (value end_ <? value start)%Z then Err ValueError
  else
    match tm_stage start (mkState [] filter []) with
    | Err e => Err e
    | Ok s =>
    let s := load_stage L0 LB start s in
    let s := process_stage L0 LB start end_ s in
    let s := load_stage L1 L0 start s in
    let s := process_stage L1 L0 start end_ s in
    let s := load_stage L2 L1 start s in
    let s := process_stage L2 L1 start end_ s in
    Ok s
    end.

(** [for le in processed_files.keys(): for f in processed_files[le]: print(str(f))] *)
Definition output (s : state) : list file := concat (map snd (processed_files s)).

End Main.

End Cli.

(** * Proofs *)

(** ** Basic facts *)

Lemma isinstance_refl : forall c, isinstance c c = true.
Proof. destruct c; reflexivity. Qed.

Lemma scet_timerange_nonempty : forall d,
  d <> [] -> exists s e, scet_timerange d = Some (s, e).
Proof.
  intros [|r0 t] H; [congruence|]. simpl. eauto.
Qed.

(** [add] on instances of the same class with non-empty Data returns a product of
    [self]'s class and level, built from [combine_tables] and the merged ranges. *)
Lemma add_ok : forall dflt st self other,
  isinstance (p_class other) (p_class self) = true ->
  data_of st self <> [] -> data_of st other <> [] ->
  exists s0 e0 s1 e1 st1 idb0 st2 idb,
    scet_timerange (data_of st self) = Some (s0, e0) /\
    scet_timerange (data_of st other) = Some (s1, e1) /\
    copy_idb st (idb_versions self) [] = (st1, idb0) /\
    expand_idb dflt st1 idb0 (idb_versions other) = (st2, idb) /\
    add dflt st self other =
      Ok (let ibits := Nat.max (index_bits (ctable_of st self)) (index_bits (ctable_of st other)) in
          let cbits := Nat.max (control_index_bits (dtable_of st self))
                         (control_index_bits (dtable_of st other)) in
          let c := fst (combine_tables ibits cbits (control_of st self) (data_of st self)
                          (control_of st other) (data_of st other) (Qle_bool s0 s1)) in
          let d := snd (combine_tables ibits cbits (control_of st self) (data_of st self)
                          (control_of st other) (data_of st other) (Qle_bool s0 s1)) in
          (mkStore (controls st2 ++ [mkCTable ibits c]) (datas st2 ++ [mkDTable cbits d])
             (ranges st2),
           mkProduct (p_class self) (service_type self) (service_subtype self) (ssid self)
             (length (controls st2)) (length (datas st2)) idb (p_level self))).
Proof.
  intros dflt st self other Hi Hs Ho.
  destruct (scet_timerange_nonempty _ Hs) as [s0 [e0 E0]].
  destruct (scet_timerange_nonempty _ Ho) as [s1 [e1 E1]].
  destruct (copy_idb st (idb_versions self) []) as [st1 idb0] eqn:Ec.
  destruct (expand_idb dflt st1 idb0 (idb_versions other)) as [st2 idb] eqn:Ee.
  exists s0, e0, s1, e1, st1, idb0, st2, idb.
  repeat split; auto.
  unfold add. rewrite Hi. simpl. rewrite E0, E1.
  destruct (combine_tables _ _ _ _ _) as [c d]. rewrite Ec, Ee. reflexivity.
Qed.

Lemma add_ok_class_level : forall dflt st self other,
  isinstance (p_class other) (p_class self) = true ->
  data_of st self <> [] -> data_of st other <> [] ->
  exists st' r, add dflt st self other = Ok (st', r) /\
                p_class r = p_class self /\ p_level r = p_level self.
Proof.
  intros dflt st self other Hi Hs Ho.
  destruct (add_ok dflt st self other Hi Hs Ho)
    as (s0 & e0 & s1 & e1 & st1 & idb0 & st2 & idb & _ & _ & _ & _ & E).
  rewrite E. do 2 eexists. split; [reflexivity|]. simpl. auto.
Qed.

Lemma add_not_instance : forall dflt st self other,
  isinstance (p_class other) (p_class self) = false ->
  add dflt st self other = Err (TypeError (p_class self) (p_class other)).
Proof. intros. unfold add. rewrite H. reflexivity. Qed.

Lemma add_empty : forall dflt st self other,
  isinstance (p_class other) (p_class self) = true ->
  (data_of st self = [] \/ data_of st other = []) ->
  add dflt st self other = Err IndexError.
Proof.
  intros dflt st self other Hi [E|E]; unfold add; rewrite Hi; simpl; rewrite E;
    [reflexivity|].
  destruct (scet_timerange (data_of st self)) as [[? ?]|]; reflexivity.
Qed.

(** ** Claim theorems: dispatch, type check, empty operands, level transitions *)

(** C4: with N the number of registered predicates that hold (the length of the
    candidate list), dispatch selects the default variant or raises
    [NoMatchError] when N = 0, selects the unique candidate when N = 1, and raises
    [MultipleMatchError] when N > 1. *)
Theorem check_registered_widget_by_match_count :
  forall (W Args : Type) (registry : list (W * (Args -> bool))) default args,
  Registry.check_registered_widget registry default args =
  match Registry.candidate_widget_types registry args with
  | [] => match default with
          | Some d => Ok d
          | None => Err Registry.NoMatchError
          end
  | [w] => Ok w
  | ws => Err (Registry.MultipleMatchError (length ws))
  end.
Proof.
  intros W Args registry default args.
  unfold Registry.check_registered_widget.
  destruct (Registry.candidate_widget_types registry args) as [|w [|w' ws]];
    [destruct default|..]; reflexivity.
Qed.

(** C5 (code bug): of two constructible products of different classes,
    a [GenericProduct] and a [DefaultProduct] (service type 6, a key of
    [service_name_map]), both with non-empty Data, [generic + default] raises no type
    error and returns a [GenericProduct], while [default + generic] raises the type
    error naming both classes: the check [isinstance(other, type(self))] accepts a
    subclass operand, so mismatched variants are merged in one order only. *)
Theorem add_accepts_subclass_operand :
  buildable Inputs.generic_product = true /\ buildable Inputs.default_product = true /\
  p_class Inputs.generic_product <> p_class Inputs.default_product /\
  data_of Inputs.mixed_store Inputs.generic_product <> [] /\
  data_of Inputs.mixed_store Inputs.default_product <> [] /\
  (exists st' r, add (mkRange 0 0) Inputs.mixed_store Inputs.generic_product
                   Inputs.default_product = Ok (st', r) /\
                 p_class r = GenericProduct) /\
  add (mkRange 0 0) Inputs.mixed_store Inputs.default_product Inputs.generic_product =
    Err (TypeError DefaultProduct GenericProduct).
Proof.
  repeat split; try reflexivity; try discriminate.
  do 2 eexists. split; reflexivity.
Qed.

(** [add] raises a type error, naming the class of [self] and of
    [other], exactly when [other] is not an instance of [type(self)] (its class is
    neither [self]'s class nor a subclass of it); otherwise no type error is raised,
    and with non-empty Data tables the result is a product of [self]'s class with
    [self]'s level. *)
Theorem add_type_error_iff_not_instance : forall dflt st self other,
  ((exists a b, add dflt st self other = Err (TypeError a b)) <->
     isinstance (p_class other) (p_class self) = false) /\
  (forall a b, add dflt st self other = Err (TypeError a b) ->
     a = p_class self /\ b = p_class other) /\
  (isinstance (p_class other) (p_class self) = true ->
     data_of st self <> [] -> data_of st other <> [] ->
     exists st' r, add dflt st self other = Ok (st', r) /\
                   p_class r = p_class self /\ p_level r = p_level self).
Proof.
  intros dflt st self other.
  destruct (isinstance (p_class other) (p_class self)) eqn:Hi.
  - assert (Hn : forall a b, add dflt st self other <> Err (TypeError a b)).
    { intros a b E. unfold add in E. rewrite Hi in E. simpl in E.
      destruct (scet_timerange (data_of st self)) as [[? ?]|];
        destruct (scet_timerange (data_of st other)) as [[? ?]|]; try discriminate.
      destruct (combine_tables _ _ _ _ _);
        destruct (copy_idb _ _ _); destruct (expand_idb _ _ _ _); discriminate. }
    split; [|split].
    + split; [intros (a & b & E); exfalso; exact (Hn a b E)|discriminate].
    + intros a b E. exfalso. exact (Hn a b E).
    + intros _ Hs Ho. apply add_ok_class_level; auto.
  - rewrite (add_not_instance dflt st self other Hi).
    split; [|split].
    + split; [|intros _; eauto]. reflexivity.
    + intros a b E. inversion E. auto.
    + discriminate.
Qed.

(** C10 (counterexample): combining a [DefaultProduct] (service type 6) with an
    empty [GenericProduct] operand, both constructible, fails with the type error,
    not an indexing error. *)
Lemma add_empty_mismatched_raises_type_error :
  buildable Inputs.default_product = true /\
  buildable Inputs.empty_generic_product = true /\
  data_of Inputs.mixed_store Inputs.empty_generic_product = [] /\
  add (mkRange 0 0) Inputs.mixed_store Inputs.default_product
    Inputs.empty_generic_product = Err (TypeError DefaultProduct GenericProduct).
Proof. repeat split; reflexivity. Qed.

(** C10 (amended): [scet_timerange] of an empty Data table raises [IndexError];
    [add] with an operand of [self]'s variant raises [IndexError] when either Data
    table is empty, and when both are non-empty it returns a product; for an operand
    that is not an instance of [self]'s class the type check comes first and [add]
    raises the type error whatever the Data tables hold. *)
Theorem add_index_error_iff_empty : forall dflt st self other,
  scet_timerange [] = None /\
  (isinstance (p_class other) (p_class self) = true ->
     (data_of st self = [] \/ data_of st other = []) ->
     add dflt st self other = Err IndexError) /\
  (isinstance (p_class other) (p_class self) = true ->
     data_of st self <> [] -> data_of st other <> [] ->
     exists st' r, add dflt st self other = Ok (st', r)) /\
  (isinstance (p_class other) (p_class self) = false ->
     add dflt st self other = Err (TypeError (p_class self) (p_class other))).
Proof.
  intros dflt st self other. split; [reflexivity|split; [|split]].
  - apply add_empty.
  - intros Hi Hs Ho.
    destruct (add_ok_class_level dflt st self other Hi Hs Ho) as (st' & r & E & _).
    eauto.
  - apply add_not_instance.
Qed.


(** ** Store lemmas *)

Lemma replace_nth_length : forall A (l : list A) n x, length (replace_nth l n x) = length l.
Proof. induction l; intros [|n] x; simpl; auto. Qed.

Lemma nth_replace_nth : forall A (l : list A) n x m d,
  n < length l ->
  nth m (replace_nth l n x) d = if Nat.eqb m n then x else nth m l d.
Proof.
  induction l as [|y l IH]; intros [|n] x [|m] d H; simpl in *; try lia; auto.
  rewrite IH by lia. reflexivity.
Qed.

Lemma nth_app_lt : forall A (l : list A) x m d, m < length l -> nth m (l ++ [x]) d = nth m l d.
Proof. intros. apply app_nth1. exact H. Qed.

Lemma nth_app_last : forall A (l : list A) x d, nth (length l) (l ++ [x]) d = x.
Proof. intros. rewrite app_nth2 by lia. rewrite Nat.sub_diag. reflexivity. Qed.

Lemma covers_refl : forall r, covers r r.
Proof. intros r. unfold covers. lia. Qed.

Lemma covers_trans : forall a b c, covers a b -> covers b c -> covers a c.
Proof. unfold covers. intros. lia. Qed.

Lemma expand_covers_l : forall r o, covers (expand r o) r.
Proof. intros. unfold covers, expand. simpl. lia. Qed.

Lemma expand_covers_r : forall r o, covers (expand r o) o.
Proof. intros. unfold covers, expand. simpl. lia. Qed.

Lemma dict_get_set_same : forall V (d : list (Z * V)) k v,
  dict_get Z.eqb (dict_set Z.eqb d k v) k = Some v.
Proof.
  induction d as [|[k' v'] d IH]; intros k v; simpl.
  - rewrite Z.eqb_refl. reflexivity.
  - destruct (Z.eqb k' k) eqn:E; simpl; rewrite E; auto.
Qed.

Lemma dict_get_set_other : forall V (d : list (Z * V)) k v k',
  k <> k' -> dict_get Z.eqb (dict_set Z.eqb d k v) k' = dict_get Z.eqb d k'.
Proof.
  induction d as [|[k0 v0] d IH]; intros k v k' Hne; simpl.
  - apply Z.eqb_neq in Hne. rewrite Hne. reflexivity.
  - destruct (Z.eqb k0 k) eqn:E; simpl.
    + apply Z.eqb_eq in E. subst k0. apply Z.eqb_neq in Hne. rewrite Hne. reflexivity.
    + destruct (Z.eqb k0 k'); auto.
Qed.

Lemma in_dict_set : forall V (d : list (Z * V)) k v k' v',
  In (k', v') (dict_set Z.eqb d k v) -> In (k', v') d \/ (k', v') = (k, v).
Proof.
  induction d as [|[k0 v0] d IH]; intros k v k' v' H; simpl in *.
  - destruct H as [H|[]]. auto.
  - destruct (Z.eqb k0 k) eqn:E.
    + apply Z.eqb_eq in E. subst k0.
      destruct H as [H|H]; [inversion H; subst; auto|auto].
    + destruct H as [H|H]; auto. destruct (IH _ _ _ _ H); auto.
Qed.

Lemma dict_get_app_some : forall V (d : list (Z * V)) e k v,
  dict_get Z.eqb d k = Some v -> dict_get Z.eqb (d ++ e) k = Some v.
Proof.
  induction d as [|[k0 v0] d IH]; intros e k v H; simpl in *; [discriminate|].
  destruct (Z.eqb k0 k); auto.
Qed.

Lemma dict_get_app_none : forall V (d : list (Z * V)) e k,
  dict_get Z.eqb d k = None -> dict_get Z.eqb (d ++ e) k = dict_get Z.eqb e k.
Proof.
  induction d as [|[k0 v0] d IH]; intros e k H; simpl in *; auto.
  destruct (Z.eqb k0 k); [discriminate|auto].
Qed.

Lemma dict_get_in : forall V (d : list (Z * V)) k v,
  dict_get Z.eqb d k = Some v -> In (k, v) d.
Proof.
  induction d as [|[k0 v0] d IH]; intros k v H; simpl in *; [discriminate|].
  destruct (Z.eqb k0 k) eqn:E; [apply Z.eqb_eq in E; inversion H; subst; auto|].
  right. auto.
Qed.

Lemma range_at_alloc_lt : forall st r l,
  l < length (ranges st) -> range_at (fst (alloc_range st r)) l = range_at st l.
Proof. intros. unfold range_at. simpl. apply nth_app_lt. exact H. Qed.

Lemma range_at_set : forall st t r l,
  t < length (ranges st) ->
  range_at (set_range st t r) l = if Nat.eqb l t then r else range_at st l.
Proof. intros. unfold range_at, set_range. simpl. apply nth_replace_nth. exact H. Qed.

(** ** The merge of [idb_versions] *)

Lemma time_range_eta : forall r, mkRange (tr_start r) (tr_end r) = r.
Proof. destruct r; reflexivity. Qed.

Lemma copy_idb_frame : forall src st acc st' acc',
  copy_idb st src acc = (st', acc') ->
  length (ranges st) <= length (ranges st') /\
  (forall l, l < length (ranges st) -> range_at st' l = range_at st l).
Proof.
  induction src as [|[k l] rest IH]; intros st acc st' acc' H; simpl in H.
  - inversion H; subst. split; auto.
  - destruct (IH _ _ _ _ H) as [Hlen Hfr]. simpl in Hlen, Hfr.
    rewrite length_app in Hlen. simpl in Hlen. split; [lia|].
    intros l' Hl'. rewrite Hfr by (rewrite length_app; simpl; lia).
    apply range_at_alloc_lt. exact Hl'.
Qed.

Lemma copy_idb_fresh : forall src st acc st' acc' base,
  copy_idb st src acc = (st', acc') ->
  base <= length (ranges st) ->
  (forall k t, In (k, t) acc -> base <= t < length (ranges st)) ->
  forall k t, In (k, t) acc' -> base <= t < length (ranges st').
Proof.
  induction src as [|[k l] rest IH]; intros st acc st' acc' base H Hb Hacc; simpl in H.
  - inversion H; subst. exact Hacc.
  - eapply IH; [exact H| simpl; rewrite length_app; simpl; lia|].
    intros k' t' Hin. simpl. rewrite length_app. simpl.
    destruct (in_dict_set _ _ _ _ _ _ Hin) as [Hin'|Heq].
    + specialize (Hacc _ _ Hin'). lia.
    + inversion Heq; subst. lia.
Qed.

Lemma copy_idb_other_keys : forall src st acc st' acc' k,
  copy_idb st src acc = (st', acc') -> ~ In k (map fst src) ->
  dict_get Z.eqb acc' k = dict_get Z.eqb acc k.
Proof.
  induction src as [|[k0 l] rest IH]; intros st acc st' acc' k H Hk; simpl in H.
  - inversion H; subst. reflexivity.
  - simpl in Hk. rewrite (IH _ _ _ _ _ H) by tauto.
    apply dict_get_set_other. tauto.
Qed.

Lemma copy_idb_copies : forall src st acc st' acc' base,
  copy_idb st src acc = (st', acc') ->
  NoDup (map fst src) ->
  (forall k l, In (k, l) src -> l < base) ->
  base <= length (ranges st) ->
  forall k l, In (k, l) src ->
  exists t, dict_get Z.eqb acc' k = Some t /\ range_at st' t = range_at st l.
Proof.
  induction src as [|[k0 l0] rest IH]; intros st acc st' acc' base H Hnd Hsrc Hb k l Hin;
    simpl in H; [destruct Hin|].
  inversion Hnd as [|? ? Hk0 Hnd']; subst.
  destruct Hin as [Heq|Hin].
  - inversion Heq; subst k0 l0.
    exists (length (ranges st)). split.
    + rewrite (copy_idb_other_keys _ _ _ _ _ _ H Hk0). apply dict_get_set_same.
    + destruct (copy_idb_frame _ _ _ _ _ H) as [_ Hfr].
      rewrite Hfr by (simpl; rewrite length_app; simpl; lia).
      unfold range_at at 1. simpl. rewrite nth_app_last. apply time_range_eta.
  - assert (Hl : l < base) by (apply (Hsrc k l); simpl; auto).
    destruct (IH _ _ _ _ base H Hnd') with (k := k) (l := l) as [t [Ht Hr]];
      auto.
    + intros k' l' Hin'. apply (Hsrc k' l'). simpl. auto.
    + simpl. rewrite length_app. simpl. lia.
    + exists t. split; auto. rewrite Hr. apply range_at_alloc_lt. lia.
Qed.

Lemma expand_idb_spec : forall dflt other st acc st' acc' base,
  expand_idb dflt st acc other = (st', acc') ->
  base <= length (ranges st) ->
  (forall k t, In (k, t) acc -> base <= t < length (ranges st)) ->
  (forall k l, In (k, l) other -> l < base) ->
  length (ranges st) <= length (ranges st') /\
  (forall l, l < base -> range_at st' l = range_at st l) /\
  (forall l, l < length (ranges st) -> covers (range_at st' l) (range_at st l)) /\
  (forall k t, dict_get Z.eqb acc k = Some t -> dict_get Z.eqb acc' k = Some t) /\
  (forall k t, In (k, t) acc' -> base <= t < length (ranges st')) /\
  (forall k l, In (k, l) other ->
     exists t, dict_get Z.eqb acc' k = Some t /\ covers (range_at st' t) (range_at st l)).
Proof.
  induction other as [|[k l] rest IH];
    intros st acc st' acc' base H Hb Hacc Hoth; simpl in H.
  - inversion H; subst.
    split; [lia|]. split; [auto|]. split; [intros; apply covers_refl|].
    split; [auto|]. split; [exact Hacc|]. intros _ _ [].
  - assert (Hl : l < base) by (apply (Hoth k l); simpl; auto).
    assert (Hrest : forall k' l', In (k', l') rest -> l' < base)
      by (intros k' l' Hin; apply (Hoth k' l'); simpl; auto).
    destruct (dict_get Z.eqb acc k) as [t|] eqn:G.
    + (* the key is already there: expand its range in place *)
      assert (Ht : base <= t < length (ranges st)) by (apply (Hacc k t), dict_get_in, G).
      set (st2 := set_range st t (expand (range_at st t) (range_at st l))) in H.
      assert (Hlen2 : length (ranges st2) = length (ranges st))
        by (unfold st2, set_range; simpl; apply replace_nth_length).
      destruct (IH _ _ _ _ base H) as (Hlen & Hfr & Hcov & Hget & Hfresh & Hoth');
        [lia|rewrite Hlen2; exact Hacc|exact Hrest|].
      assert (E2 : forall l', range_at st2 l' =
                if Nat.eqb l' t then expand (range_at st t) (range_at st l)
                else range_at st l') by (intros; unfold st2; apply range_at_set; lia).
      split; [|split; [|split; [|split; [|split]]]].
      * lia.
      * intros l' Hl'. rewrite Hfr by exact Hl'. rewrite E2.
        destruct (Nat.eqb_spec l' t); [lia|reflexivity].
      * intros l' Hl'. eapply covers_trans; [apply Hcov; lia|].
        rewrite E2. destruct (Nat.eqb_spec l' t); [subst; apply expand_covers_l|apply covers_refl].
      * exact Hget.
      * exact Hfresh.
      * intros k' l' [Heq|Hin].
        -- inversion Heq; subst k' l'. exists t. split; [apply Hget; exact G|].
           eapply covers_trans; [apply Hcov; lia|].
           rewrite E2, Nat.eqb_refl. apply expand_covers_r.
        -- destruct (Hoth' _ _ Hin) as [t' [Ht' Hc]]. exists t'. split; auto.
           specialize (Hrest _ _ Hin). rewrite E2 in Hc.
           destruct (Nat.eqb_spec l' t); [lia|exact Hc].
    + (* a new default range is created for the key, then expanded *)
      set (t := length (ranges st)) in H.
      set (st1 := mkStore (controls st) (datas st) (ranges st ++ [dflt])) in H.
      assert (Hlen1 : length (ranges st1) = S t)
        by (unfold st1, t; simpl; rewrite length_app; simpl; lia).
      set (st2 := set_range st1 t (expand (range_at st1 t) (range_at st1 l))) in H.
      assert (Hlen2 : length (ranges st2) = S t)
        by (unfold st2, set_range; simpl; rewrite replace_nth_length; exact Hlen1).
      assert (E1 : forall l', l' < t -> range_at st1 l' = range_at st l')
        by (intros; apply (range_at_alloc_lt st dflt); assumption).
      assert (E2 : forall l', range_at st2 l' =
                if Nat.eqb l' t then expand (range_at st1 t) (range_at st1 l)
                else range_at st1 l')
        by (intros; unfold st2; apply range_at_set; rewrite Hlen1; lia).
      destruct (IH _ _ _ _ base H) as (Hlen & Hfr & Hcov & Hget & Hfresh & Hoth');
        [rewrite Hlen2; unfold t; lia| |exact Hrest|].
      { intros k' t' Hin. rewrite Hlen2. apply in_app_or in Hin. destruct Hin as [Hin|[Hin|[]]].
        - specialize (Hacc _ _ Hin). unfold t. lia.
        - inversion Hin; subst. unfold t in *. lia. }
      split; [|split; [|split; [|split; [|split]]]].
      * unfold t in *. lia.
      * intros l' Hl'. rewrite Hfr by exact Hl'. rewrite E2.
        destruct (Nat.eqb_spec l' t); [unfold t in *; lia|apply E1; unfold t in *; lia].
      * intros l' Hl'. eapply covers_trans; [apply Hcov; lia|].
        rewrite E2. destruct (Nat.eqb_spec l' t); [unfold t in *; lia|].
        rewrite E1 by exact Hl'. apply covers_refl.
      * intros k' t' G'. apply Hget. apply dict_get_app_some. exact G'.
      * exact Hfresh.
      * intros k' l' [Heq|Hin].
        -- inversion Heq; subst k' l'. exists t. split.
           ++ apply Hget. rewrite dict_get_app_none by exact G. simpl.
              rewrite Z.eqb_refl. reflexivity.
           ++ eapply covers_trans; [apply Hcov; lia|].
              rewrite E2, Nat.eqb_refl, (E1 l) by (unfold t in *; lia).
              apply expand_covers_r.
        -- destruct (Hoth' _ _ Hin) as [t' [Ht' Hc]]. exists t'. split; auto.
           specialize (Hrest _ _ Hin).
           rewrite E2 in Hc. destruct (Nat.eqb_spec l' t); [unfold t in *; lia|].
           rewrite E1 in Hc by (unfold t in *; lia). exact Hc.
Qed.

Lemma validb_spec : forall st p, validb st p = true ->
  control_ref p < length (controls st) /\ data_ref p < length (datas st) /\
  forall k l, In (k, l) (idb_versions p) -> l < length (ranges st).
Proof.
  intros st p H. unfold validb in H.
  apply andb_prop in H as [H H3]. apply andb_prop in H as [H1 H2].
  apply Nat.ltb_lt in H1, H2. split; [|split]; auto.
  intros k l Hin. rewrite forallb_forall in H3.
  apply (H3 (k, l)) in Hin. apply Nat.ltb_lt in Hin. exact Hin.
Qed.

(** C9: combining two same-variant products with non-empty Data: for every key of
    either input's [idb_versions], the result has a range for that key covering the
    input's range; the result's ranges are new objects (deep copies or new ranges),
    and no range object that existed before the call is modified. *)
Theorem add_idb_versions_cover : forall dflt st A B,
  p_class A = p_class B ->
  data_of st A <> [] -> data_of st B <> [] ->
  validb st A = true -> validb st B = true ->
  NoDup (map fst (idb_versions A)) ->
  exists st' R, add dflt st A B = Ok (st', R) /\
    (forall k l, In (k, l) (idb_versions A) ->
       exists l', dict_get Z.eqb (idb_versions R) k = Some l' /\
                  covers (range_at st' l') (range_at st l)) /\
    (forall k l, In (k, l) (idb_versions B) ->
       exists l', dict_get Z.eqb (idb_versions R) k = Some l' /\
                  covers (range_at st' l') (range_at st l)) /\
    (forall k l', In (k, l') (idb_versions R) -> length (ranges st) <= l') /\
    (forall l, l < length (ranges st) -> range_at st' l = range_at st l).
Proof.
  intros dflt st A B HAB HA HB VA VB Hnd.
  assert (Hi : isinstance (p_class B) (p_class A) = true)
    by (rewrite HAB; apply isinstance_refl).
  destruct (add_ok dflt st A B Hi HA HB)
    as (s0 & e0 & s1 & e1 & st1 & idb0 & st2 & idb & _ & _ & Ec & Ee & E).
  rewrite E. do 2 eexists. split; [reflexivity|].
  set (base := length (ranges st)).
  destruct (validb_spec _ _ VA) as (_ & _ & LA).
  destruct (validb_spec _ _ VB) as (_ & _ & LB).
  destruct (copy_idb_frame _ _ _ _ _ Ec) as [Clen Cfr].
  assert (Cfresh := copy_idb_fresh _ _ _ _ _ base Ec (le_n _) ltac:(intros ? ? [])).
  destruct (expand_idb_spec dflt _ _ _ _ _ base Ee) as (Xlen & Xfr & Xcov & Xget & Xfresh & Xoth).
  - exact Clen.
  - exact Cfresh.
  - exact LB.
  - assert (Hr : forall x y l, range_at (mkStore x y (ranges st2)) l = range_at st2 l)
      by reflexivity.
    simpl. split; [|split; [|split]].
    + intros k l Hin.
      destruct (copy_idb_copies _ _ _ _ _ base Ec Hnd LA (le_n _) k l Hin) as [t [Gt Rt]].
      exists t. split; [apply Xget; exact Gt|]. rewrite Hr, <- Rt.
      apply Xcov. apply (Cfresh k t), dict_get_in, Gt.
    + intros k l Hin. destruct (Xoth k l Hin) as [t [Gt Ct]].
      exists t. split; [exact Gt|]. rewrite Hr, <- (Cfr l) by (apply (LB k), Hin). exact Ct.
    + intros k l' Hin. apply (Xfresh k l' Hin).
    + intros l Hl. rewrite Hr, Xfr by exact Hl. apply Cfr. exact Hl.
Qed.

(** ** Stable sort and [unique] *)

Section SortFacts.
Context {A : Type} (key : A -> Z).

Local Abbreviation kle := (@kle A key).
Local Abbreviation klt := (@klt A key).
Local Abbreviation first_with := (@first_with A key).



Lemma insert_by_sorted : forall x l, Sorted kle l -> Sorted kle (insert_by key x l).
Proof.
  intros x l H. induction H as [|y t Ht IH Hhd]; simpl; [auto|].
  destruct (Z.leb_spec (key x) (key y)).
  - constructor; [constructor; auto|constructor; unfold kle; lia].
  - constructor; [exact IH|].
    destruct t as [|z t']; simpl; [constructor; unfold kle; lia|].
    inversion Hhd; subst.
    destruct (key x <=? key z)%Z; constructor; unfold kle in *; lia.
Qed.

Lemma sort_by_sorted : forall l, Sorted kle (sort_by key l).
Proof. induction l; simpl; auto using insert_by_sorted. Qed.

Lemma insert_by_filter : forall k x l,
  filter (fun y => (key y =? k)%Z) (insert_by key x l) =
  filter (fun y => (key y =? k)%Z) (x :: l).
Proof.
  intros k x l. induction l as [|y t IH]; simpl; [reflexivity|].
  destruct (Z.leb_spec (key x) (key y)); [reflexivity|].
  simpl. rewrite IH. simpl.
  destruct (Z.eqb_spec (key y) k); destruct (Z.eqb_spec (key x) k); try lia; reflexivity.
Qed.

(** Stability: the rows of one key keep their order. *)
Lemma sort_by_filter : forall k l,
  filter (fun y => (key y =? k)%Z) (sort_by key l) = filter (fun y => (key y =? k)%Z) l.
Proof.
  intros k l. induction l as [|x t IH]; simpl; [reflexivity|].
  rewrite insert_by_filter. simpl. rewrite IH. reflexivity.
Qed.

Lemma find_hd_filter : forall (f : A -> bool) l, find f l = hd_error (filter f l).
Proof. intros f l. induction l as [|x t IH]; simpl; [reflexivity|]. destruct (f x); auto. Qed.

Lemma first_with_sort_by : forall k l, first_with k (sort_by key l) = first_with k l.
Proof. intros. unfold first_with. rewrite !find_hd_filter, sort_by_filter. reflexivity. Qed.

Lemma sort_by_sorted_id : forall l, Sorted kle l -> sort_by key l = l.
Proof.
  intros l H. induction H as [|x t Ht IH Hhd]; simpl; [reflexivity|].
  rewrite IH. destruct Hhd as [|y t' Hxy]; simpl; [reflexivity|].
  unfold kle in Hxy. destruct (Z.leb_spec (key x) (key y)); [reflexivity|lia].
Qed.

Definition above (prev : option Z) (y : A) : Prop :=
  match prev with Some p => (p <= key y)%Z | None => True end.


Lemma first_of_groups_sorted : forall l prev,
  Sorted kle l -> (forall y, In y l -> above prev y) ->
  Sorted klt (first_of_groups key prev l) /\
  (forall y, In y (first_of_groups key prev l) ->
     match prev with Some p => (p < key y)%Z | None => True end).
Proof.
  induction l as [|x t IH]; intros prev Hs Hab; simpl; [split; [constructor|intros _ []]|].
  apply Sorted_StronglySorted in Hs; [|intros a b c; unfold kle; lia].
  inversion Hs as [|? ? Hs' Hall]; subst.
  assert (Hx : forall y, In y t -> above (Some (key x)) y).
  { intros y Hy. rewrite Forall_forall in Hall. apply Hall. exact Hy. }
  destruct (IH (Some (key x)) (StronglySorted_Sorted Hs') Hx) as [IHs IHb].
  assert (Hcons : Sorted klt (x :: first_of_groups key (Some (key x)) t)).
  { constructor; [exact IHs|].
    destruct (first_of_groups key (Some (key x)) t) as [|z r] eqn:E; constructor.
    unfold klt. apply (IHb z). left. reflexivity. }
  destruct prev as [p|].
  - destruct (Z.eqb_spec p (key x)).
    + subst p. apply IH; [apply StronglySorted_Sorted; exact Hs'|exact Hx].
    + split; [exact Hcons|].
      assert (Hp : (p <= key x)%Z) by (apply (Hab x); left; reflexivity).
      intros y [Hy|Hy]; [subst; lia|]. specialize (IHb y Hy). simpl in IHb. lia.
  - split; [exact Hcons|]. intros; exact I.
Qed.

(** On a sorted table, a row is kept by [first_of_groups] exactly when it is the
    first row of its key and its key differs from [prev]. *)
Lemma first_of_groups_in : forall l prev y,
  Sorted kle l -> (forall z, In z l -> above prev z) ->
  In y (first_of_groups key prev l) <->
  first_with (key y) l = Some y /\ prev <> Some (key y).
Proof.
  unfold first_with.
  induction l as [|x t IH]; intros prev y Hs Hab; simpl.
  - split; [intros []|intros [H _]; discriminate].
  - apply Sorted_StronglySorted in Hs; [|intros a b c; unfold kle; lia].
    inversion Hs as [|? ? Hs' Hall]; subst.
    assert (Hx : forall z, In z t -> above (Some (key x)) z).
    { intros z Hz. rewrite Forall_forall in Hall. apply Hall. exact Hz. }
    assert (Ht : forall z, In z t -> above prev z).
    { intros z Hz. specialize (Hab z (or_intror Hz)). exact Hab. }
    assert (Hxp : above prev x) by (apply Hab; left; reflexivity).
    assert (Hs'' := StronglySorted_Sorted Hs').
    assert (Hkeep : In y (x :: first_of_groups key (Some (key x)) t) <->
                    (if (key x =? key y)%Z then Some x else
                       find (fun z => (key z =? key y)%Z) t) = Some y /\
                    Some (key x) <> Some (key y) \/ x = y).
    { simpl. rewrite (IH (Some (key x)) y Hs'' Hx).
      destruct (Z.eqb_spec (key x) (key y)).
      - split; [intros [H|[_ H]]; [right; exact H|congruence]|].
        intros [[_ H]|H]; [rewrite e in H; congruence|left; exact H].
      - split; [intros [H|H]; [right; exact H|left; exact H]|].
        intros [H|H]; [right; exact H|left; exact H]. }
    destruct prev as [p|].
    + destruct (Z.eqb_spec p (key x)).
      * subst p. rewrite (IH (Some (key x)) y Hs'' Hx).
        destruct (Z.eqb_spec (key x) (key y)); [|tauto].
        split; [intros [_ H]; congruence|intros [_ H]; congruence].
      * rewrite Hkeep. destruct (Z.eqb_spec (key x) (key y)).
        -- split; [intros [[_ H]|H]; [congruence|subst; split; [reflexivity|congruence]]|].
           intros [H _]. right. congruence.
        -- split.
           ++ intros [[H _]|H]; [|subst; congruence].
              split; [exact H|]. intros E. inversion E.
              apply find_some in H as [Hy _]. specialize (Hx y Hy). simpl in Hx, Hxp. lia.
           ++ intros [H _]. left. split; [exact H|congruence].
    + rewrite Hkeep. destruct (Z.eqb_spec (key x) (key y)).
      * split; [intros [[_ H]|H]; [congruence|subst; split; [reflexivity|congruence]]|].
        intros [H _]. right. congruence.
      * split; [intros [[H _]|H]; [split; [exact H|congruence]|subst; congruence]|].
        intros [H _]. left. split; [exact H|congruence].
Qed.

Lemma unique_by_sorted : forall l, Sorted klt (unique_by key l).
Proof.
  intros l. unfold unique_by.
  apply (first_of_groups_sorted _ None (sort_by_sorted l)). intros; exact I.
Qed.

Lemma unique_by_in : forall l y,
  In y (unique_by key l) <-> first_with (key y) l = Some y.
Proof.
  intros l y. unfold unique_by.
  rewrite (first_of_groups_in _ None y (sort_by_sorted l)) by (intros; exact I).
  rewrite first_with_sort_by. split; [tauto|intros H; split; [exact H|discriminate]].
Qed.


Lemma sorted_klt_nodup : forall l, Sorted klt l -> NoDup (map key l).
Proof.
  intros l H. apply Sorted_StronglySorted in H; [|intros a b c; unfold klt; lia].
  induction H as [|x t Ht IH Hall]; simpl; constructor; auto.
  intros Hin. apply in_map_iff in Hin as [z [Hz Hin]].
  rewrite Forall_forall in Hall. specialize (Hall z Hin). unfold klt in Hall. lia.
Qed.

Lemma sorted_klt_kle : forall l, Sorted klt l -> Sorted kle l.
Proof.
  intros l H. induction H as [|x t Ht IH Hhd]; constructor; auto.
  destruct Hhd; constructor. unfold klt, kle in *. lia.
Qed.
End SortFacts.

(** ** Rounding *)

Lemma round_half_even_bounds : forall a b, (0 < b)%Z ->
  (a / b <= round_half_even a b <= a / b + 1)%Z.
Proof.
  intros a b Hb. unfold round_half_even.
  destruct (2 * (a mod b) <? b)%Z; [lia|].
  destruct (b <? 2 * (a mod b))%Z; [lia|]. destruct (Z.even (a / b)); lia.
Qed.

Lemma round_half_even_mono : forall a1 a2 b, (0 < b)%Z -> (a1 <= a2)%Z ->
  (round_half_even a1 b <= round_half_even a2 b)%Z.
Proof.
  intros a1 a2 b Hb H12.
  pose proof (Z.div_le_mono a1 a2 b Hb H12) as Hq.
  destruct (Z.eq_dec (a1 / b) (a2 / b)) as [Eq|Nq].
  - pose proof (Z.mod_pos_bound a1 b Hb). pose proof (Z.mod_pos_bound a2 b Hb).
    pose proof (Z.div_mod a1 b ltac:(lia)) as D1. pose proof (Z.div_mod a2 b ltac:(lia)) as D2.
    rewrite Eq in D1.
    assert (Hr : (a1 mod b <= a2 mod b)%Z) by lia.
    unfold round_half_even. rewrite Eq.
    destruct (Z.ltb_spec (2 * (a1 mod b)) b); destruct (Z.ltb_spec b (2 * (a1 mod b)));
      destruct (Z.ltb_spec (2 * (a2 mod b)) b); destruct (Z.ltb_spec b (2 * (a2 mod b)));
      destruct (Z.even (a2 / b)); lia.
  - pose proof (round_half_even_bounds a1 b Hb). pose proof (round_half_even_bounds a2 b Hb).
    lia.
Qed.

Lemma time_float_mono : forall r1 r2, (time r1 <= time r2)%Z -> (time_float r1 <= time_float r2)%Z.
Proof.
  intros r1 r2 H. unfold time_float. apply round_half_even_mono; unfold MAX_FINE; lia.
Qed.

(** ** [old_index] dictionaries *)

Lemma old_index_eqb_spec : forall a b, old_index_eqb a b = true <-> a = b.
Proof.
  intros [i|i] [j|j]; simpl; split; intros H; try discriminate;
    try (apply Nat.eqb_eq in H; subst; reflexivity);
    inversion H; subst; apply Nat.eqb_refl.
Qed.

Lemma old_index_eqb_refl : forall a, old_index_eqb a a = true.
Proof. intros a. apply old_index_eqb_spec. reflexivity. Qed.

Abbreviation oget := (dict_get old_index_eqb).

Lemma oget_in : forall V (d : list (old_index * V)) k v, oget d k = Some v -> In (k, v) d.
Proof.
  induction d as [|[k0 v0] d IH]; intros k v H; simpl in *; [discriminate|].
  destruct (old_index_eqb k0 k) eqn:E.
  - apply old_index_eqb_spec in E. inversion H. subst. auto.
  - right. auto.
Qed.

Lemma oget_none : forall V (d : list (old_index * V)) k,
  oget d k = None <-> ~ In k (map fst d).
Proof.
  induction d as [|[k0 v0] d IH]; intros k; simpl; [tauto|].
  destruct (old_index_eqb k0 k) eqn:E.
  - apply old_index_eqb_spec in E. subst. split; [discriminate|tauto].
  - rewrite IH. assert (k0 <> k) by (intros H; subst; rewrite old_index_eqb_refl in E; discriminate).
    tauto.
Qed.


Lemma oget_app_some : forall V (d e : list (old_index * V)) k v,
  oget d k = Some v -> oget (d ++ e) k = Some v.
Proof.
  induction d as [|[k0 v0] d IH]; intros e k v H; simpl in *; [discriminate|].
  destruct (old_index_eqb k0 k); auto.
Qed.

Lemma oset_new : forall V (d : list (old_index * V)) k v,
  oget d k = None -> dict_set old_index_eqb d k v = d ++ [(k, v)].
Proof.
  induction d as [|[k0 v0] d IH]; intros k v H; simpl in *; [reflexivity|].
  destruct (old_index_eqb k0 k); [discriminate|]. rewrite IH; auto.
Qed.

Lemma oget_app_new : forall V (d : list (old_index * V)) k v,
  oget d k = None -> oget (d ++ [(k, v)]) k = Some v.
Proof.
  induction d as [|[k0 v0] d IH]; intros k v H; simpl in *.
  - rewrite old_index_eqb_refl. reflexivity.
  - destruct (old_index_eqb k0 k); [discriminate|auto].
Qed.

(** ** The new control indices ([renumber]) *)


Lemma renumber_spec : forall bits rows ids ids' rows',
  renumber bits ids rows = (ids', rows') ->
  map forget_ci rows' = map forget_ci rows /\
  (forall o n, oget ids o = Some n -> oget ids' o = Some n) /\
  (forall o, In o (map fst ids') <-> In o (map fst ids) \/ In o (map fst rows)) /\
  (forall p, In p rows' -> exists n, oget ids' (fst p) = Some n /\
                                     control_index (snd p) = to_uint bits n) /\
  (ids_dense ids -> ids_dense ids').
Proof.
  intros bits.
  induction rows as [|[o r] rest IH]; intros ids ids' rows' H; simpl in H.
  - inversion H; subst. simpl.
    split; [reflexivity|split; [auto|split; [tauto|split; [intros _ []|auto]]]].
  - destruct (oget ids o) as [n|] eqn:G.
    + rewrite G in H. destruct (renumber bits ids rest) as [final rest'] eqn:Er.
      inversion H; subst ids' rows'; clear H.
      destruct (IH _ _ _ Er) as (Hf & Hext & Hmem & Hci & Hd).
      split; [simpl; rewrite Hf; reflexivity|].
      split; [exact Hext|]. split.
      { intros o'. rewrite Hmem. simpl. split; [tauto|].
        intros [H|[H|H]]; auto. left. subst o'.
        apply in_map_iff. exists (o, n). split; [reflexivity|apply oget_in, G]. }
      split; [|exact Hd].
      intros p [Hp|Hp]; [subst p; simpl; exists n; split; [apply Hext; exact G|reflexivity]
                        |apply Hci; exact Hp].
    + rewrite (oset_new _ _ _ _ G), (oget_app_new _ _ _ _ G) in H.
      destruct (renumber bits (ids ++ [(o, length ids)]) rest) as [final rest'] eqn:Er.
      inversion H; subst ids' rows'; clear H.
      destruct (IH _ _ _ Er) as (Hf & Hext & Hmem & Hci & Hd).
      split; [simpl; rewrite Hf; reflexivity|].
      split; [intros o' n' G'; apply Hext, oget_app_some, G'|]. split.
      { intros o'. rewrite Hmem, map_app. simpl. rewrite in_app_iff. simpl. tauto. }
      split.
      * intros p [Hp|Hp]; [subst p; simpl; exists (length ids);
                           split; [apply Hext, oget_app_new, G|reflexivity]
                          |apply Hci; exact Hp].
      * intros [Hs Hnd]. apply Hd. split.
        -- rewrite !map_app, Hs, length_app. simpl. rewrite Nat.add_1_r, seq_S. reflexivity.
        -- rewrite map_app. apply NoDup_app; [exact Hnd|constructor; [intros []|constructor]|].
           intros a Ha [Hb|[]]. subst a. apply oget_none in G. contradiction.
Qed.



(** ** List helpers *)


Lemma NoDup_map_inj_on : forall A B C (f : A -> B) (g : A -> C) l,
  NoDup (map f l) -> (forall x y, In x l -> In y l -> g x = g y -> f x = f y) ->
  NoDup (map g l).
Proof.
  intros A B C f g l Hnd Hinj. induction l as [|x t IH]; simpl; constructor.
  - intros Hin. apply in_map_iff in Hin as [y [Hy Hin]].
    inversion Hnd as [|? ? Hx _]; subst. apply Hx.
    rewrite (Hinj x y) by (simpl; auto). apply in_map. exact Hin.
  - inversion Hnd; subst. apply IH; auto. intros. apply Hinj; simpl; auto.
Qed.

Lemma NoDup_map_eq : forall A B (f : A -> B) l x y,
  NoDup (map f l) -> In x l -> In y l -> f x = f y -> x = y.
Proof.
  intros A B f l x y Hnd. induction l as [|z t IH]; intros Hx Hy E; [destruct Hx|].
  inversion Hnd as [|? ? Hz Hnd']; subst.
  destruct Hx as [Hx|Hx]; destruct Hy as [Hy|Hy]; subst; auto.
  - exfalso. apply Hz. rewrite E. apply in_map. exact Hy.
  - exfalso. apply Hz. rewrite <- E. apply in_map. exact Hx.
Qed.

Lemma seq_strongly_sorted : forall len start, StronglySorted lt (seq start len).
Proof.
  induction len as [|len IH]; intros start; simpl; constructor; auto.
  apply Forall_forall. intros x Hx. apply in_seq in Hx. lia.
Qed.


Lemma strictly_sorted_eq : forall l1 l2 : list nat,
  StronglySorted lt l1 -> StronglySorted lt l2 -> (forall x, In x l1 <-> In x l2) -> l1 = l2.
Proof.
  induction l1 as [|a t1 IH]; intros [|b t2] H1 H2 Hm; auto.
  - exfalso. apply (proj2 (Hm b)). left. reflexivity.
  - exfalso. apply (proj1 (Hm a)). left. reflexivity.
  - inversion H1 as [|? ? H1' A1]; inversion H2 as [|? ? H2' A2]; subst.
    rewrite Forall_forall in A1, A2.
    assert (a = b).
    { destruct (proj1 (Hm a) (or_introl eq_refl)) as [E|Ha]; auto.
      destruct (proj2 (Hm b) (or_introl eq_refl)) as [E|Hb]; auto.
      specialize (A1 b Hb). specialize (A2 a Ha). lia. }
    subst b. f_equal. apply IH; auto. intros x. split; intros Hx.
    + destruct (proj1 (Hm x) (or_intror Hx)) as [E|H]; auto.
      subst x. specialize (A1 a Hx). lia.
    + destruct (proj2 (Hm x) (or_intror Hx)) as [E|H]; auto.
      subst x. specialize (A2 a Hx). lia.
Qed.

(** ** Merge invariants *)






Lemma add_ok_tables : forall dflt st self other st' R,
  add dflt st self other = Ok (st', R) ->
  exists s0 e0 s1 e1,
    scet_timerange (data_of st self) = Some (s0, e0) /\
    scet_timerange (data_of st other) = Some (s1, e1) /\
    combine_tables (Nat.max (index_bits (ctable_of st self)) (index_bits (ctable_of st other)))
      (Nat.max (control_index_bits (dtable_of st self)) (control_index_bits (dtable_of st other)))
      (control_of st self) (data_of st self)
      (control_of st other) (data_of st other) (Qle_bool s0 s1) =
    (control_of st' R, data_of st' R).
Proof.
  intros dflt st self other st' R H.
  destruct (isinstance (p_class other) (p_class self)) eqn:Hi;
    [|unfold add in H; rewrite Hi in H; discriminate].
  assert (Hs : data_of st self <> []) by (intros E; unfold add in H; rewrite Hi, E in H; discriminate).
  assert (Ho : data_of st other <> []).
  { intros E. unfold add in H. rewrite Hi, E in H. simpl in H.
    destruct (scet_timerange (data_of st self)) as [[]|]; discriminate. }
  destruct (add_ok dflt st self other Hi Hs Ho)
    as (s0 & e0 & s1 & e1 & st1 & idb0 & st2 & idb & E0 & E1 & _ & _ & Hadd).
  rewrite Hadd in H. inversion H; subst st' R; clear H.
  exists s0, e0, s1, e1. split; [exact E0|]. split; [exact E1|].
  destruct (combine_tables _ _ _ _ _ _ _) as [c d].
  unfold control_of, data_of, ctable_of, dtable_of.
  cbn [controls datas control_ref data_ref fst snd].
  rewrite !nth_app_last. reflexivity.
Qed.


(** ** Merge content *)

Lemma copy_idb_tables : forall src st acc st' acc',
  copy_idb st src acc = (st', acc') -> controls st' = controls st /\ datas st' = datas st.
Proof.
  induction src as [|[k l] rest IH]; intros st acc st' acc' H; simpl in H.
  - inversion H; subst. auto.
  - apply IH in H. simpl in H. exact H.
Qed.

Lemma expand_idb_tables : forall dflt other st acc st' acc',
  expand_idb dflt st acc other = (st', acc') -> controls st' = controls st /\ datas st' = datas st.
Proof.
  induction other as [|[k l] rest IH]; intros st acc st' acc' H; simpl in H.
  - inversion H; subst. auto.
  - destruct (dict_get Z.eqb acc k) as [t|]; apply IH in H; simpl in H; exact H.
Qed.

(** [add] only appends the two new tables: every table that existed before is
    still there, unchanged. *)
Lemma add_tables_frame : forall dflt st self other st' R,
  add dflt st self other = Ok (st', R) ->
  (exists c, controls st' = controls st ++ [c]) /\ (exists d, datas st' = datas st ++ [d]) /\
  control_ref R = length (controls st) /\ data_ref R = length (datas st).
Proof.
  intros dflt st self other st' R H.
  destruct (isinstance (p_class other) (p_class self)) eqn:Hi;
    [|unfold add in H; rewrite Hi in H; discriminate].
  assert (Hs : data_of st self <> []) by (intros E; unfold add in H; rewrite Hi, E in H; discriminate).
  assert (Ho : data_of st other <> []).
  { intros E. unfold add in H. rewrite Hi, E in H. simpl in H.
    destruct (scet_timerange (data_of st self)) as [[]|]; discriminate. }
  destruct (add_ok dflt st self other Hi Hs Ho)
    as (s0 & e0 & s1 & e1 & st1 & idb0 & st2 & idb & _ & _ & Ec & Ee & Hadd).
  rewrite Hadd in H. inversion H; subst st' R; clear H.
  destruct (copy_idb_tables _ _ _ _ _ Ec) as [C1 D1].
  destruct (expand_idb_tables _ _ _ _ _ _ Ee) as [C2 D2]. simpl.
  rewrite C2, D2, C1, D1. split; [eauto|]. split; [eauto|]. auto.
Qed.

Lemma add_data_of_frame : forall dflt st self other st' R p,
  add dflt st self other = Ok (st', R) -> data_ref p < length (datas st) ->
  data_of st' p = data_of st p.
Proof.
  intros dflt st self other st' R p H Hp.
  destruct (add_tables_frame _ _ _ _ _ _ H) as (_ & [d Ed] & _).
  unfold data_of, dtable_of. rewrite Ed, nth_app_lt by exact Hp. reflexivity.
Qed.


Lemma keys_disjoint_sym : forall l1 l2, keys_disjoint l1 l2 -> keys_disjoint l2 l1.
Proof. intros l1 l2 H r1 r2 H1 H2 E. apply (H r2 r1 H2 H1). auto. Qed.

Lemma find_app : forall A (f : A -> bool) l1 l2,
  find f (l1 ++ l2) = match find f l1 with Some x => Some x | None => find f l2 end.
Proof.
  intros A f l1 l2. induction l1 as [|x t IH]; simpl; [reflexivity|]. destruct (f x); auto.
Qed.

Lemma first_with_tag : forall mk k l,
  first_with tkey k (tag_data mk l) =
  option_map (fun r => (mk (control_index r), r)) (first_with time_float k l).
Proof.
  intros mk k l. induction l as [|r t IH]; [reflexivity|].
  unfold first_with in *. simpl. unfold tkey at 1. simpl.
  destruct (time_float r =? k)%Z; [reflexivity|exact IH].
Qed.

Lemma first_with_tag_app : forall m1 m2 l1 l2 k p,
  keys_disjoint l1 l2 ->
  first_with tkey k (tag_data m1 l1 ++ tag_data m2 l2) = Some p <->
  (exists r, first_with time_float k l1 = Some r /\ p = (m1 (control_index r), r)) \/
  (exists r, first_with time_float k l2 = Some r /\ p = (m2 (control_index r), r)).
Proof.
  intros m1 m2 l1 l2 k p Hdis. unfold first_with at 1. rewrite find_app.
  fold (first_with tkey k (tag_data m1 l1)) (first_with tkey k (tag_data m2 l2)).
  rewrite !first_with_tag.
  destruct (first_with time_float k l1) as [r|] eqn:E1; simpl.
  - split.
    + intros H. inversion H. left. eauto.
    + intros [(r' & E & ->)|(r' & E & _)]; [inversion E; reflexivity|].
      exfalso. unfold first_with in E1, E.
      apply find_some in E1 as [I1 K1]. apply find_some in E as [I2 K2].
      apply Z.eqb_eq in K1, K2. apply (Hdis r r' I1 I2). congruence.
  - destruct (first_with time_float k l2) as [r|]; simpl.
    + split; [intros H; inversion H; right; eauto|].
      intros [(r' & E & _)|(r' & E & ->)]; [discriminate|inversion E; reflexivity].
    + split; [discriminate|]. intros [(r' & E & _)|(r' & E & _)]; discriminate.
Qed.

Lemma first_of_key_in : forall l r, first_of_key l r -> In r l.
Proof. intros l r H. unfold first_of_key, first_with in H. apply find_some in H. tauto. Qed.

Lemma first_of_key_exists : forall l r, In r l ->
  exists r', first_of_key l r' /\ time_float r' = time_float r.
Proof.
  intros l r Hr. unfold first_of_key.
  destruct (first_with time_float (time_float r) l) as [r'|] eqn:E.
  - exists r'. unfold first_with in E. pose proof E as E'.
    apply find_some in E' as [_ K]. apply Z.eqb_eq in K. rewrite K. split; auto.
  - exfalso. unfold first_with in E. apply (find_none _ _ E) in Hr.
    rewrite Z.eqb_refl in Hr. discriminate.
Qed.

Lemma first_of_key_nodup : forall l r,
  NoDup (map time_float l) -> In r l -> first_of_key l r.
Proof.
  intros l r Hnd Hr. destruct (first_of_key_exists l r Hr) as [r' [H E]].
  rewrite (NoDup_map_eq _ _ time_float l r' r Hnd (first_of_key_in _ _ H) Hr E) in H. exact H.
Qed.

Lemma first_rows_content_nodup : forall l x,
  NoDup (map time_float l) -> first_rows_content l x <-> In x (content l).
Proof.
  intros l x Hnd. unfold first_rows_content, content. rewrite in_map_iff. split.
  - intros (r & H & E). exists r. split; [exact E|]. apply first_of_key_in. exact H.
  - intros (r & E & H). exists r. split; [|exact E]. apply first_of_key_nodup; auto.
Qed.

Lemma combine_tables_rows : forall ib cb sc sd oc od b c d,
  combine_tables ib cb sc sd oc od b = (c, d) ->
  map (fun r => set_control_index r 0) d =
  map (fun p => set_control_index (snd p) 0)
    (unique_by tkey (if b then tag_data OSelf sd ++ tag_data OOther od
                     else tag_data OOther od ++ tag_data OSelf sd)).
Proof.
  intros ib cb sc sd oc od b c d Hc. unfold combine_tables in Hc. cbv zeta in Hc.
  rewrite sort_by_sorted_id in Hc by (apply sorted_klt_kle, unique_by_sorted).
  destruct (renumber cb [] _) as [ids R] eqn:Er. inversion Hc; subst d; clear Hc.
  destruct (renumber_spec _ _ _ _ _ Er) as (Hf & _).
  rewrite map_map. change (fun x => set_control_index (snd x) 0) with (fun x => snd (forget_ci x)).
  rewrite <- (map_map forget_ci snd), Hf, map_map. reflexivity.
Qed.

(** A function of a row that ignores its [control_index] sees the merged Data as
    the deduplicated stack of both inputs. *)
Lemma combine_tables_map : forall B (f : drow -> B) ib cb sc sd oc od b c d,
  (forall r, f (set_control_index r 0) = f r) ->
  combine_tables ib cb sc sd oc od b = (c, d) ->
  map f d = map (fun p => f (snd p))
    (unique_by tkey (if b then tag_data OSelf sd ++ tag_data OOther od
                     else tag_data OOther od ++ tag_data OSelf sd)).
Proof.
  intros B f ib cb sc sd oc od b c d Hf0 Hc.
  transitivity (map f (map (fun r => set_control_index r 0) d)).
  - rewrite map_map. apply map_ext. intros r. symmetry. apply Hf0.
  - rewrite (combine_tables_rows _ _ _ _ _ _ _ _ _ Hc), map_map. apply map_ext. intros p. apply Hf0.
Qed.

Lemma combine_tables_keys_nodup : forall ib cb sc sd oc od b c d,
  combine_tables ib cb sc sd oc od b = (c, d) -> NoDup (map time_float d).
Proof.
  intros ib cb sc sd oc od b c d Hc. rewrite (combine_tables_map _ time_float _ _ _ _ _ _ _ _ _ (fun r => eq_refl) Hc).
  apply (sorted_klt_nodup tkey). apply unique_by_sorted.
Qed.

Lemma combine_tables_content : forall ib cb sc sd oc od b c d x,
  combine_tables ib cb sc sd oc od b = (c, d) -> keys_disjoint sd od ->
  In x (content d) <-> first_rows_content sd x \/ first_rows_content od x.
Proof.
  intros ib cb sc sd oc od b c d x Hc Hdis. unfold content.
  rewrite (combine_tables_map _ (fun r => (time r, values r)) _ _ _ _ _ _ _ _ _ (fun r => eq_refl) Hc).
  rewrite in_map_iff. unfold first_rows_content, first_of_key.
  split.
  - intros (p & Ex & Hp). apply unique_by_in in Hp. destruct b.
    + apply first_with_tag_app in Hp as [(r & E & ->)|(r & E & ->)]; auto;
        [left|right]; exists r; unfold tkey in E; simpl in E; auto.
    + apply first_with_tag_app in Hp as [(r & E & ->)|(r & E & ->)];
        [| |apply keys_disjoint_sym; exact Hdis];
        [right|left]; exists r; unfold tkey in E; simpl in E; auto.
  - intros [(r & E & Ex)|(r & E & Ex)].
    + exists (OSelf (control_index r), r). split; [exact Ex|]. apply unique_by_in.
      destruct b; apply first_with_tag_app; eauto using keys_disjoint_sym.
    + exists (OOther (control_index r), r). split; [exact Ex|]. apply unique_by_in.
      destruct b; apply first_with_tag_app; eauto using keys_disjoint_sym.
Qed.

Lemma add_ok_pre : forall dflt st self other st' R,
  add dflt st self other = Ok (st', R) ->
  isinstance (p_class other) (p_class self) = true /\
  data_of st self <> [] /\ data_of st other <> [].
Proof.
  intros dflt st self other st' R H.
  destruct (isinstance (p_class other) (p_class self)) eqn:Hi;
    [|unfold add in H; rewrite Hi in H; discriminate].
  split; [reflexivity|]. split.
  - intros E. unfold add in H. rewrite Hi, E in H. discriminate.
  - intros E. unfold add in H. rewrite Hi, E in H. simpl in H.
    destruct (scet_timerange (data_of st self)) as [[]|]; discriminate.
Qed.

Lemma add_class : forall dflt st self other st' R,
  add dflt st self other = Ok (st', R) -> p_class R = p_class self.
Proof.
  intros dflt st self other st' R H.
  destruct (add_ok_pre _ _ _ _ _ _ H) as (Hi & Hs & Ho).
  destruct (add_ok_class_level dflt st self other Hi Hs Ho) as (st'' & R' & E & Cl & _).
  rewrite H in E. inversion E. subst. exact Cl.
Qed.

Lemma add_content : forall dflt st X Y st' R,
  add dflt st X Y = Ok (st', R) -> keys_disjoint (data_of st X) (data_of st Y) ->
  NoDup (map time_float (data_of st' R)) /\
  (forall x, In x (content (data_of st' R)) <->
     first_rows_content (data_of st X) x \/ first_rows_content (data_of st Y) x).
Proof.
  intros dflt st X Y st' R H Hdis.
  destruct (add_ok_tables _ _ _ _ _ _ H) as (s0 & e0 & s1 & e1 & _ & _ & Hc).
  split; [eapply combine_tables_keys_nodup; eauto|].
  intros x. eapply combine_tables_content; eauto.
Qed.

Lemma add_keys_from : forall dflt st X Y st' R r,
  add dflt st X Y = Ok (st', R) -> keys_disjoint (data_of st X) (data_of st Y) ->
  In r (data_of st' R) ->
  (exists r', In r' (data_of st X) /\ time_float r' = time_float r) \/
  (exists r', In r' (data_of st Y) /\ time_float r' = time_float r).
Proof.
  intros dflt st X Y st' R r H Hdis Hr.
  destruct (add_content _ _ _ _ _ _ H Hdis) as [_ Hc].
  assert (Hx : In (time r, values r) (content (data_of st' R))) by (apply (in_map (fun r => (time r, values r))); exact Hr).
  apply Hc in Hx as [(r' & Hk & E)|(r' & Hk & E)]; inversion E as [[Et Ev]];
    [left|right]; exists r'; split; try (apply first_of_key_in; exact Hk);
    unfold time_float; rewrite Et; reflexivity.
Qed.

Lemma add_nonempty : forall dflt st X Y st' R,
  add dflt st X Y = Ok (st', R) -> keys_disjoint (data_of st X) (data_of st Y) ->
  data_of st' R <> [].
Proof.
  intros dflt st X Y st' R H Hdis E.
  destruct (add_ok_pre _ _ _ _ _ _ H) as (_ & Hs & _).
  destruct (add_content _ _ _ _ _ _ H Hdis) as [_ Hc].
  destruct (data_of st X) as [|r0 t] eqn:EX; [contradiction|].
  destruct (first_of_key_exists (r0 :: t) r0 (or_introl eq_refl)) as [r' [Hk _]].
  assert (Hx : In (time r', values r') (content (data_of st' R))).
  { apply Hc. left. exists r'. auto. }
  rewrite E in Hx. destruct Hx.
Qed.

(** C6: for same-variant products [A], [B], [C] with non-empty Data whose rounded
    time keys are pairwise disjoint across the three inputs, both [(A + B) + C] and
    [A + (B + C)] succeed and their Data tables hold the same set of (time, value)
    pairs: for each rounded time key of an input, the pair of the first row of that
    input with the key. *)
Theorem add_assoc_content : forall dflt st A B C,
  p_class A = p_class B -> p_class B = p_class C ->
  data_of st A <> [] -> data_of st B <> [] -> data_of st C <> [] ->
  data_ref A < length (datas st) -> data_ref C < length (datas st) ->
  keys_disjoint (data_of st A) (data_of st B) ->
  keys_disjoint (data_of st B) (data_of st C) ->
  keys_disjoint (data_of st A) (data_of st C) ->
  exists st1 AB st2 ABC st3 BC st4 ABC',
    add dflt st A B = Ok (st1, AB) /\ add dflt st1 AB C = Ok (st2, ABC) /\
    add dflt st B C = Ok (st3, BC) /\ add dflt st3 A BC = Ok (st4, ABC') /\
    forall x,
      (In x (content (data_of st2 ABC)) <-> In x (content (data_of st4 ABC'))) /\
      (In x (content (data_of st2 ABC)) <->
         first_rows_content (data_of st A) x \/ first_rows_content (data_of st B) x \/
         first_rows_content (data_of st C) x).
Proof.
  intros dflt st A B C HAB HBC HA HB HC RA RC DAB DBC DAC.
  assert (I1 : isinstance (p_class B) (p_class A) = true) by (rewrite HAB; apply isinstance_refl).
  destruct (add_ok_class_level dflt st A B I1 HA HB) as (st1 & AB & E1 & Cl1 & _).
  assert (FC : data_of st1 C = data_of st C) by exact (add_data_of_frame _ _ _ _ _ _ C E1 RC).
  assert (NAB := add_nonempty _ _ _ _ _ _ E1 DAB).
  assert (I2 : isinstance (p_class C) (p_class AB) = true)
    by (replace (p_class AB) with (p_class C) by congruence; apply isinstance_refl).
  assert (HC1 : data_of st1 C <> []) by (rewrite FC; exact HC).
  destruct (add_ok_class_level dflt st1 AB C I2 NAB HC1) as (st2 & ABC & E2 & _ & _).
  assert (I3 : isinstance (p_class C) (p_class B) = true) by (rewrite HBC; apply isinstance_refl).
  destruct (add_ok_class_level dflt st B C I3 HB HC) as (st3 & BC & E3 & Cl3 & _).
  assert (FA : data_of st3 A = data_of st A) by exact (add_data_of_frame _ _ _ _ _ _ A E3 RA).
  assert (NBC := add_nonempty _ _ _ _ _ _ E3 DBC).
  assert (I4 : isinstance (p_class BC) (p_class A) = true)
    by (replace (p_class BC) with (p_class A) by congruence; apply isinstance_refl).
  assert (HA3 : data_of st3 A <> []) by (rewrite FA; exact HA).
  destruct (add_ok_class_level dflt st3 A BC I4 HA3 NBC) as (st4 & ABC' & E4 & _ & _).
  exists st1, AB, st2, ABC, st3, BC, st4, ABC'.
  split; [exact E1|]. split; [exact E2|]. split; [exact E3|]. split; [exact E4|].
  assert (D1 : keys_disjoint (data_of st1 AB) (data_of st1 C)).
  { intros r1 r2 H1 H2. rewrite FC in H2.
    destruct (add_keys_from _ _ _ _ _ _ _ E1 DAB H1) as [(r' & I & E)|(r' & I & E)];
      rewrite <- E; [apply DAC|apply DBC]; auto. }
  assert (D3 : keys_disjoint (data_of st3 A) (data_of st3 BC)).
  { intros r1 r2 H1 H2. rewrite FA in H1.
    destruct (add_keys_from _ _ _ _ _ _ _ E3 DBC H2) as [(r' & I & E)|(r' & I & E)];
      rewrite <- E; [apply DAB|apply DAC]; auto. }
  destruct (add_content _ _ _ _ _ _ E1 DAB) as [K1 C1].
  destruct (add_content _ _ _ _ _ _ E2 D1) as [_ C2].
  destruct (add_content _ _ _ _ _ _ E3 DBC) as [K3 C3].
  destruct (add_content _ _ _ _ _ _ E4 D3) as [_ C4].
  rewrite FC in C2. rewrite FA in C4.
  intros x.
  specialize (C1 x). specialize (C2 x). specialize (C3 x). specialize (C4 x).
  pose proof (first_rows_content_nodup _ x K1) as F1.
  pose proof (first_rows_content_nodup _ x K3) as F3.
  tauto.
Qed.

(** ** Split fragments *)

Lemma first_with_inj : forall A (key : A -> Z) l y,
  (forall a b, key a = key b -> a = b) ->
  first_with key (key y) l = Some y <-> In y l.
Proof.
  intros A key l y Hinj. unfold first_with. split.
  - intros H. apply find_some in H. tauto.
  - intros H. destruct (find (fun z => (key z =? key y)%Z) l) as [z|] eqn:E.
    + apply find_some in E as [_ K]. apply Z.eqb_eq, Hinj in K. subst. reflexivity.
    + apply (find_none _ _ E) in H. rewrite Z.eqb_refl in H. discriminate.
Qed.

Lemma unique_by_inj_in : forall A (key : A -> Z) l y,
  (forall a b, key a = key b -> a = b) -> In y (unique_by key l) <-> In y l.
Proof. intros. rewrite unique_by_in. apply first_with_inj. auto. Qed.

Lemma unique_by_inj_nodup : forall A (key : A -> Z) l,
  (forall a b, key a = key b -> a = b) -> NoDup (unique_by key l).
Proof.
  intros A key l Hinj. rewrite <- (map_id (unique_by key l)).
  apply (NoDup_map_inj_on _ _ _ key).
  - apply sorted_klt_nodup, unique_by_sorted.
  - intros x y _ _ E. subst. reflexivity.
Qed.

Lemma list_min_le : forall l x, In x l -> list_min l <= x.
Proof.
  intros [|a t] x H; [destruct H|]. simpl.
  assert (G : forall t a x, In x (a :: t) -> fold_left Nat.min t a <= x).
  { induction t0 as [|b t0 IH]; intros a0 x0 H0; simpl in *.
    - destruct H0 as [->|[]]. lia.
    - destruct H0 as [->|[->|H0]].
      + specialize (IH (Nat.min x0 b) (Nat.min x0 b) (or_introl eq_refl)). lia.
      + specialize (IH (Nat.min a0 x0) (Nat.min a0 x0) (or_introl eq_refl)). lia.
      + apply (IH (Nat.min a0 b)). right. exact H0. }
  apply G. exact H.
Qed.

Lemma list_min_in : forall l, l <> [] -> In (list_min l) l.
Proof.
  intros [|a t] H; [contradiction|]. simpl.
  assert (G : forall t a, fold_left Nat.min t a = a \/ In (fold_left Nat.min t a) t).
  { induction t0 as [|b t0 IH]; intros a0; simpl; [auto|].
    destruct (IH (Nat.min a0 b)) as [E|E]; [rewrite E|auto].
    destruct (Nat.min_spec a0 b) as [[_ ->]|[_ ->]]; auto. }
  destruct (G t a) as [E|E]; rewrite ?E; auto.
Qed.

Lemma strongly_sorted_nodup : forall l : list nat, StronglySorted lt l -> NoDup l.
Proof.
  intros l H. induction H as [|x t Ht IH Hall]; constructor; auto.
  rewrite Forall_forall in Hall. intros Hx. specialize (Hall x Hx). lia.
Qed.

Lemma strongly_sorted_map_filter : forall A (f : A -> nat) (p : A -> bool) l,
  StronglySorted lt (map f l) -> StronglySorted lt (map f (filter p l)).
Proof.
  intros A f p l H. induction l as [|x t IH]; simpl in *; [constructor|].
  inversion H as [|? ? Ht Hall]; subst. destruct (p x); simpl; auto.
  constructor; auto. rewrite Forall_forall in *. intros y Hy. apply Hall.
  apply in_map_iff in Hy as [z [<- Hz]]. apply filter_In in Hz as [Hz _]. apply in_map. exact Hz.
Qed.

Lemma strongly_sorted_shift : forall (l : list nat) m,
  StronglySorted lt l -> (forall x, In x l -> m <= x) ->
  StronglySorted lt (map (fun x => x - m) l).
Proof.
  intros l m H Hm. induction H as [|x t Ht IH Hall]; simpl; constructor.
  - apply IH. intros y Hy. apply Hm. right. exact Hy.
  - rewrite Forall_forall in *. intros y Hy. apply in_map_iff in Hy as [z [<- Hz]].
    specialize (Hall z Hz). pose proof (Hm z (or_intror Hz)). pose proof (Hm x (or_introl eq_refl)). lia.
Qed.

(** A strictly increasing list of naturals is [0 .. K-1] exactly when the set of
    its members is closed downwards. *)
Lemma strictly_sorted_dense_iff : forall (L : list nat) (P : nat -> Prop),
  StronglySorted lt L -> (forall i, In i L <-> P i) ->
  (L = seq 0 (length L) <-> forall i j, P i -> j <= i -> P j).
Proof.
  intros L P Hs HP. split.
  - intros E i j Hi Hj. apply HP in Hi. apply HP. rewrite E in Hi |- *.
    apply in_seq in Hi. apply in_seq. lia.
  - intros Hd. assert (Hnd := strongly_sorted_nodup L Hs).
    assert (Hlt : forall x, In x L -> x < length L).
    { intros x Hx. assert (Hinc : incl (seq 0 (S x)) L).
      { intros j Hj. apply in_seq in Hj. apply HP. apply (Hd x j); [apply HP; exact Hx|lia]. }
      apply NoDup_incl_length in Hinc; [|apply seq_NoDup]. rewrite length_seq in Hinc. lia. }
    apply strictly_sorted_eq; [exact Hs|apply seq_strongly_sorted|].
    intros x. split; intros Hx.
    + apply in_seq. specialize (Hlt x Hx). lia.
    + apply (NoDup_length_incl (l' := seq 0 (length L)) Hnd); [rewrite length_seq; lia| |exact Hx].
      intros y Hy. apply in_seq. specialize (Hlt y Hy). lia.
Qed.

Lemma existsb_eqb_in : forall i l, existsb (Nat.eqb i) l = true <-> In i l.
Proof.
  intros i l. rewrite existsb_exists. split.
  - intros [x [Hx E]]. apply Nat.eqb_eq in E. subst. exact Hx.
  - intros H. exists i. split; [exact H|apply Nat.eqb_refl].
Qed.

(** The Control and Data tables of one fragment, built from the selected rows [sel]. *)
Lemma make_fragment_spec : forall ctrl sel c d,
  StronglySorted lt (map index ctrl) -> refint ctrl sel -> sel <> [] ->
  make_fragment ctrl sel = (c, d) ->
  StronglySorted lt (map index c) /\
  (forall i, In i (map index c) <-> exists r, In r d /\ control_index r = i) /\
  In 0 (map index c).
Proof.
  intros ctrl sel c d Hs Href Hne H. unfold make_fragment in H.
  set (U := unique_by Z.of_nat (map control_index sel)) in H.
  set (m := list_min U) in H.
  set (F := filter (fun c => existsb (Nat.eqb (index c)) U) ctrl) in H.
  inversion H; subst c d; clear H.
  assert (HU : forall i, In i U <-> In i (map control_index sel))
    by (intros i; apply unique_by_inj_in; intros; lia).
  assert (Hm_le : forall x, In x U -> m <= x) by (intros; apply list_min_le; auto).
  assert (Hm_in : In m U).
  { apply list_min_in. destruct sel as [|r t]; [contradiction|].
    intros E. assert (Hr : In (control_index r) U) by (apply HU; left; reflexivity).
    rewrite E in Hr. destruct Hr. }
  assert (Hidx : map index (map (fun c => set_index c (index c - m)) F) =
                 map (fun i => i - m) (map index F)) by (rewrite !map_map; reflexivity).
  assert (Hc : forall i, In i (map index (map (fun c => set_index c (index c - m)) F)) <->
                 exists r, In r (map (fun r => set_control_index r (control_index r - m)) sel) /\
                           control_index r = i).
  { intros i. rewrite Hidx, map_map. rewrite in_map_iff. split.
    - intros [x [<- Hx]]. apply filter_In in Hx as [_ Hx]. apply existsb_eqb_in, HU in Hx.
      apply in_map_iff in Hx as [r [Er Hr]].
      exists (set_control_index r (control_index r - m)).
      split; [apply (in_map (fun r => set_control_index r (control_index r - m))); exact Hr|].
      simpl. rewrite Er. reflexivity.
    - intros [r' [Hr' <-]]. apply in_map_iff in Hr' as [r [<- Hr]].
      pose proof (Href r Hr) as Hx. apply in_map_iff in Hx as [x [Ex Hx]].
      exists x. split; [simpl; rewrite Ex; reflexivity|].
      apply filter_In. split; [exact Hx|]. apply existsb_eqb_in, HU. rewrite Ex.
      apply in_map. exact Hr. }
  split; [|split; [exact Hc|]].
  - rewrite Hidx. apply strongly_sorted_shift; [apply strongly_sorted_map_filter; exact Hs|].
    intros x Hx. apply in_map_iff in Hx as [y [<- Hy]]. apply filter_In in Hy as [_ Hy].
    apply Hm_le, existsb_eqb_in. exact Hy.
  - apply Hc. apply HU in Hm_in. apply in_map_iff in Hm_in as [r [Er Hr]].
    exists (set_control_index r (control_index r - m)).
    split; [apply (in_map (fun r => set_control_index r (control_index r - m))); exact Hr|].
    simpl. lia.
Qed.

Lemma in_day_iff : forall ds s, in_day ds s = true <-> s = ds.
Proof.
  intros ds s. unfold in_day. rewrite andb_true_iff, Z.leb_le, Z.ltb_lt. lia.
Qed.

Lemma filter_sub : forall A (p q : A -> bool) l,
  (forall x, p x = true -> q x = true) -> filter p (filter q l) = filter p l.
Proof.
  intros A p q l H. induction l as [|x t IH]; simpl; [reflexivity|].
  destruct (q x) eqn:Eq; simpl.
  - destruct (p x); rewrite IH; reflexivity.
  - destruct (p x) eqn:Ep; [rewrite (H x Ep) in Eq; discriminate|exact IH].
Qed.

Lemma filter_split_perm : forall A (p : A -> bool) l,
  Permutation (filter p l ++ filter (fun x => negb (p x)) l) l.
Proof.
  intros A p l. induction l as [|x t IH]; simpl; [constructor|].
  destruct (p x); simpl.
  - constructor. exact IH.
  - apply Permutation_sym. apply Permutation_cons_app. apply Permutation_sym. exact IH.
Qed.

(** Selecting, day by day, the elements whose key is that day gives back every
    element exactly once when each key is one of the (distinct) days. *)
Lemma concat_filter_perm : forall A (k : A -> Z) days l,
  NoDup days -> (forall x, In x l -> In (k x) days) ->
  Permutation (concat (map (fun d => filter (fun x => in_day d (k x)) l) days)) l.
Proof.
  intros A k days. induction days as [|d ds IH]; intros l Hnd Hk; simpl.
  - destruct l as [|x t]; [constructor|]. destruct (Hk x (or_introl eq_refl)).
  - inversion Hnd as [|? ? Hd Hnd']; subst.
    set (l' := filter (fun x => negb (in_day d (k x))) l).
    assert (E : map (fun d' => filter (fun x => in_day d' (k x)) l) ds =
                map (fun d' => filter (fun x => in_day d' (k x)) l') ds).
    { apply map_ext_in. intros d' Hd'. unfold l'. symmetry. apply filter_sub.
      intros x Hx. apply in_day_iff in Hx. apply negb_true_iff.
      destruct (in_day d (k x)) eqn:E; [|reflexivity].
      apply in_day_iff in E. subst. congruence. }
    rewrite E. eapply perm_trans; [|apply (filter_split_perm _ (fun x => in_day d (k x)))].
    apply Permutation_app_head. apply IH; [exact Hnd'|].
    intros x Hx. unfold l' in Hx. apply filter_In in Hx as [Hx Hn].
    destruct (Hk x Hx) as [E'|E']; [|exact E'].
    subst. assert (in_day (k x) (k x) = true) by (apply in_day_iff; reflexivity).
    rewrite H in Hn. discriminate.
Qed.

Lemma make_fragment_payload : forall ctrl sel,
  map payload (snd (make_fragment ctrl sel)) = map payload sel.
Proof. intros. unfold make_fragment. simpl. rewrite map_map. reflexivity. Qed.

Lemma fragments_payload : forall day_of days ctrl data,
  concat (map (fun f => map payload (snd (snd f))) (fragments day_of days ctrl data)) =
  concat (map (fun d => map payload (filter (fun r => in_day d (day_of r)) data)) days).
Proof.
  intros day_of days ctrl data. induction days as [|d ds IH]; simpl; [reflexivity|].
  destruct (filter (fun r => in_day d (day_of r)) data) as [|r t] eqn:E;
    cbn -[make_fragment payload].
  - exact IH.
  - rewrite IH, make_fragment_payload. reflexivity.
Qed.

Lemma fragments_perm : forall day_of days ctrl data,
  NoDup days -> (forall r, In r data -> In (day_of r) days) ->
  Permutation (concat (map (fun f => map payload (snd (snd f))) (fragments day_of days ctrl data)))
              (map payload data).
Proof.
  intros day_of days ctrl data Hnd Hk. rewrite fragments_payload.
  rewrite <- (map_map (fun d => filter (fun r => in_day d (day_of r)) data) (map payload)).
  rewrite <- concat_map. apply Permutation_map. apply concat_filter_perm; auto.
Qed.

Lemma fragments_in : forall day_of days ctrl data f,
  In f (fragments day_of days ctrl data) ->
  In (fst f) days /\
  exists sel, sel = filter (fun r => in_day (fst f) (day_of r)) data /\ sel <> [] /\
              snd f = make_fragment ctrl sel.
Proof.
  intros day_of days ctrl data f. induction days as [|d ds IH]; simpl; [tauto|].
  destruct (filter (fun r => in_day d (day_of r)) data) as [|r t] eqn:E.
  - intros H. destruct (IH H) as [H1 H2]. auto.
  - intros [<-|H]; [|destruct (IH H) as [H1 H2]; auto].
    simpl. split; [auto|]. exists (r :: t). split; [auto|]. split; [discriminate|reflexivity].
Qed.

Lemma fragments_days : forall day_of days ctrl data day,
  In day (map fst (fragments day_of days ctrl data)) <->
  In day days /\ exists r, In r data /\ day_of r = day.
Proof.
  intros day_of days ctrl data day. induction days as [|d ds IH]; simpl; [tauto|].
  destruct (filter (fun r => in_day d (day_of r)) data) as [|r t] eqn:E; simpl; rewrite IH.
  - split; [tauto|]. intros [[->|Hd] (r & Hr & Er)]; [|eauto].
    exfalso. assert (Hf : In r (filter (fun r => in_day day (day_of r)) data)).
    { apply filter_In. split; [exact Hr|]. apply in_day_iff. exact Er. }
    rewrite E in Hf. destruct Hf.
  - split.
    + intros [->|[Hd He]]; [|auto]. split; [auto|].
      assert (Hf : In r (filter (fun r => in_day day (day_of r)) data)) by (rewrite E; left; auto).
      apply filter_In in Hf as [Hr Hin]. apply in_day_iff in Hin. eauto.
    + intros [[->|Hd] He]; auto.
Qed.

Lemma fragments_nodup : forall day_of days ctrl data,
  NoDup days -> NoDup (map fst (fragments day_of days ctrl data)).
Proof.
  intros day_of days ctrl data Hnd. induction Hnd as [|d ds Hd Hnd IH]; simpl; [constructor|].
  destruct (filter (fun r => in_day d (day_of r)) data); simpl; [exact IH|].
  constructor; [|exact IH]. intros H. apply fragments_days in H. tauto.
Qed.

Lemma emit_spec : forall bits frags st self st' outs,
  emit st self bits frags = (st', outs) ->
  (exists ec, controls st' = controls st ++ ec) /\ (exists ed, datas st' = datas st ++ ed) /\
  map (fun o => (fst o, (control_of st' (snd o), data_of st' (snd o)))) outs = frags /\
  (forall o, In o outs -> p_class (snd o) = p_class self /\ p_level (snd o) = p_level self /\
                          idb_versions (snd o) = idb_versions self).
Proof.
  intros bits.
  induction frags as [|[day [c d]] rest IH]; intros st self st' outs H; simpl in H.
  - inversion H; subst. split; [exists []; rewrite app_nil_r; auto|].
    split; [exists []; rewrite app_nil_r; auto|]. split; [reflexivity|]. intros o [].
  - set (tc := mkCTable (fst (bits day)) c) in H.
    set (td := mkDTable (snd (bits day)) d) in H.
    destruct (emit (mkStore (controls st ++ [tc]) (datas st ++ [td]) (ranges st)) self bits rest)
      as [st3 outs3] eqn:E.
    inversion H; subst st' outs; clear H.
    destruct (IH _ _ _ _ E) as ([ec Ec] & [ed Ed] & Hmap & Hcls). simpl in Ec, Ed.
    split; [exists ([tc] ++ ec); rewrite Ec, app_assoc; reflexivity|].
    split; [exists ([td] ++ ed); rewrite Ed, app_assoc; reflexivity|].
    split.
    + simpl. rewrite Hmap. f_equal. f_equal.
      unfold control_of, data_of, ctable_of, dtable_of. simpl.
      rewrite Ec, Ed, (app_nth1 (controls st ++ [tc])), (app_nth1 (datas st ++ [td]))
        by (rewrite length_app; simpl; lia).
      rewrite !nth_app_last. reflexivity.
    + intros o [<-|Ho]; [simpl; auto|]. apply Hcls. exact Ho.
Qed.

Lemma split_to_files_ok : forall get_scedays utc_date st self st' outs,
  split_to_files get_scedays utc_date st self = Ok (st', outs) ->
  exists frags,
    split_tables get_scedays utc_date (p_level self) (control_of st self) (data_of st self) = Ok frags /\
    map (fun o => (fst o, (control_of st' (snd o), data_of st' (snd o)))) outs = frags /\
    (forall o, In o outs -> p_class (snd o) = p_class self /\ p_level (snd o) = p_level self /\
                            idb_versions (snd o) = idb_versions self).
Proof.
  intros get_scedays utc_date st self st' outs H. unfold split_to_files in H.
  revert H. destruct (split_tables _ _ _ _ _) as [frags|e] eqn:Es; intros H; [|discriminate].
  injection H as Hem. exists frags. split; [reflexivity|].
  destruct (emit_spec _ _ _ _ _ _ Hem) as (_ & _ & Hmap & Hcls). auto.
Qed.

Lemma get_dates_in : forall a b x, In x (get_dates a b) <-> (a <= x <= b)%Z.
Proof.
  intros a b x. unfold get_dates. rewrite in_map_iff. split.
  - intros [i [<- Hi]]. apply in_seq in Hi. lia.
  - intros Hx. exists (Z.to_nat (x - a)). split; [lia|]. apply in_seq. lia.
Qed.

Lemma get_dates_nodup : forall a b, NoDup (get_dates a b).
Proof.
  intros a b. unfold get_dates. apply (NoDup_map_inj_on _ _ _ (fun i => i)).
  - rewrite map_id. apply seq_NoDup.
  - intros x y _ _ E. lia.
Qed.

Lemma sorted_head_le : forall r0 t r,
  Sorted Z.le (map time (r0 :: t)) -> In r (r0 :: t) -> (time r0 <= time r)%Z.
Proof.
  intros r0 t r Hs Hr. apply Sorted_StronglySorted in Hs; [|intros x y z; lia].
  destruct Hr as [->|Hr]; [lia|]. inversion Hs as [|? ? _ Hall]; subst.
  rewrite Forall_forall in Hall. apply Hall. apply in_map. exact Hr.
Qed.

Lemma sorted_le_last : forall l r d,
  Sorted Z.le (map time l) -> In r l -> (time r <= time (last l d))%Z.
Proof.
  induction l as [|x t IH]; intros r d Hs Hr; [destruct Hr|].
  destruct t as [|y t'].
  - destruct Hr as [->|[]]. simpl. lia.
  - change (last (x :: y :: t') d) with (last (y :: t') d).
    assert (Hs' : Sorted Z.le (map time (y :: t'))) by (inversion Hs; auto).
    destruct Hr as [->|Hr]; [|apply IH; auto].
    transitivity (time y); [|apply IH; simpl; auto].
    inversion Hs as [|? ? _ Hhd]; subst. inversion Hhd; subst. auto.
Qed.

Lemma last_in_cons : forall A (l : list A) d, In (last l d) (d :: l).
Proof.
  intros A l. induction l as [|x t IH]; intros d; simpl; [auto|].
  destruct t as [|y t']; [auto|]. destruct (IH d) as [E|E]; auto.
Qed.

Lemma half_le : forall a b : Z, (0 <= b)%Z ->
  (inject_Z a - inject_Z b / inject_Z 2 <= inject_Z a)%Q /\
  (inject_Z a <= inject_Z a + inject_Z b / inject_Z 2)%Q.
Proof.
  intros a b Hb. unfold Qle, Qminus, Qplus, Qopp, Qdiv, Qmult, Qinv, inject_Z. simpl.
  split; nia.
Qed.

(** With time-sorted Data and non-negative sample durations, every row's time lies
    in [scet_timerange]. *)
Lemma scet_timerange_bounds : forall d s e,
  Sorted Z.le (map time d) -> (forall r, In r d -> (0 <= timedel r)%Z) ->
  scet_timerange d = Some (s, e) ->
  forall r, In r d -> (s <= inject_Z (time r) <= e)%Q.
Proof.
  intros [|r0 t] s e Hs Hd H r Hr; [discriminate|]. simpl in H. inversion H; subst; clear H.
  split.
  - apply Qle_trans with (inject_Z (time r0)); [apply half_le, Hd; left; reflexivity|].
    rewrite <- Zle_Qle. apply (sorted_head_le r0 t r Hs Hr).
  - apply Qle_trans with (inject_Z (time (last (r0 :: t) r0))).
    + rewrite <- Zle_Qle. apply sorted_le_last; auto.
    + apply half_le. apply Hd.
      pose proof (last_in_cons _ (r0 :: t) r0) as E. simpl in E |- *. destruct E as [E|E]; [left; exact E|exact E].
Qed.

Lemma split_tables_fragments : forall get_scedays utc_date lvl ctrl data frags,
  split_tables get_scedays utc_date lvl ctrl data = Ok frags ->
  exists day_of days, frags = fragments day_of days ctrl data.
Proof.
  intros get_scedays utc_date lvl ctrl data frags H. unfold split_tables in H.
  destruct (is_L0 lvl); simpl in H; [injection H as <-; eauto|].
  destruct (scet_timerange data) as [[s e]|]; simpl in H; [injection H as <-; eauto|discriminate].
Qed.


Lemma split_tables_days : forall get_scedays utc_date lvl ctrl data,
  (forall a b, (a <= b)%Q -> (utc_date a <= utc_date b)%Z) ->
  split_pre lvl data ->
  exists day_of days,
    split_tables get_scedays utc_date lvl ctrl data = Ok (fragments day_of days ctrl data) /\
    (forall r, day_of r = day_key get_scedays utc_date lvl r) /\
    NoDup days /\ (forall r, In r data -> In (day_of r) days).
Proof.
  intros get_scedays utc_date lvl ctrl data Hmono Hpre. unfold split_tables, day_key.
  destruct (is_L0 lvl) eqn:EL.
  - eexists; eexists. split; [reflexivity|]. split; [reflexivity|].
    split; [apply unique_by_inj_nodup; auto|].
    intros r Hr. apply unique_by_inj_in; [auto|]. apply (in_map (fun r => get_scedays (time r))). exact Hr.
  - destruct Hpre as [E|(Hs & Hd & Hne)]; [congruence|].
    destruct (scet_timerange_nonempty _ Hne) as [s [e Es]]. rewrite Es.
    eexists; eexists. split; [reflexivity|]. split; [reflexivity|].
    split; [apply get_dates_nodup|].
    intros r Hr. apply get_dates_in.
    destruct (scet_timerange_bounds _ _ _ Hs Hd Es r Hr). split; apply Hmono; auto.
Qed.

Lemma split_to_files_frags : forall get_scedays utc_date st P,
  (forall a b, (a <= b)%Q -> (utc_date a <= utc_date b)%Z) ->
  split_pre (p_level P) (data_of st P) ->
  exists day_of days st' outs,
    split_to_files get_scedays utc_date st P = Ok (st', outs) /\
    map (fun o => (fst o, (control_of st' (snd o), data_of st' (snd o)))) outs =
      fragments day_of days (control_of st P) (data_of st P) /\
    (forall r, day_of r = day_key get_scedays utc_date (p_level P) r) /\
    NoDup days /\ (forall r, In r (data_of st P) -> In (day_of r) days).
Proof.
  intros get_scedays utc_date st P Hmono Hpre.
  destruct (split_tables_days get_scedays utc_date (p_level P) (control_of st P) (data_of st P)
              Hmono Hpre) as (day_of & days & Es & Hk & Hnd & Hin).
  destruct (emit st P (fragment_bits get_scedays utc_date (p_level P) (ctable_of st P) (dtable_of st P))
              (fragments day_of days (control_of st P) (data_of st P))) as [st' outs] eqn:Ee.
  exists day_of, days, st', outs.
  split; [unfold split_to_files; rewrite Es, Ee; reflexivity|].
  destruct (emit_spec _ _ _ _ _ _ Ee) as (_ & _ & Hmap & _). auto.
Qed.

Lemma in_outs_fragment : forall st' (outs : list (Z * product)) frags o,
  map (fun o => (fst o, (control_of st' (snd o), data_of st' (snd o)))) outs = frags ->
  In o outs -> In (fst o, (control_of st' (snd o), data_of st' (snd o))) frags.
Proof.
  intros st' outs frags o Hmap Ho. rewrite <- Hmap.
  apply (in_map (fun o => (fst o, (control_of st' (snd o), data_of st' (snd o))))). exact Ho.
Qed.

(** C2 (amended): when a product whose Control [index] column is [0 .. n-1] and
    whose Data [control_index] values all name a Control row is split, every
    emitted fragment's Control [index] column is strictly increasing, contains 0,
    and holds exactly the values of the fragment's Data [control_index] column; it
    is the contiguous [0 .. K-1] exactly when those values leave no gap. *)
Theorem split_fragment_control_index : forall get_scedays utc_date st P st' outs,
  map index (control_of st P) = seq 0 (length (control_of st P)) ->
  refint (control_of st P) (data_of st P) ->
  split_to_files get_scedays utc_date st P = Ok (st', outs) ->
  forall o, In o outs ->
    StronglySorted lt (map index (control_of st' (snd o))) /\
    In 0 (map index (control_of st' (snd o))) /\
    (forall i, In i (map index (control_of st' (snd o))) <->
               exists r, In r (data_of st' (snd o)) /\ control_index r = i) /\
    (map index (control_of st' (snd o)) = seq 0 (length (control_of st' (snd o))) <->
     forall r j, In r (data_of st' (snd o)) -> j <= control_index r ->
                 exists r', In r' (data_of st' (snd o)) /\ control_index r' = j).
Proof.
  intros gs ud st P st' outs Hd Hr H o Ho.
  destruct (split_to_files_ok _ _ _ _ _ _ H) as (frags & Es & Hmap & _).
  destruct (split_tables_fragments _ _ _ _ _ _ Es) as (day_of & days & Ef). rewrite Ef in Hmap.
  pose proof (in_outs_fragment _ _ _ _ Hmap Ho) as Hf.
  apply fragments_in in Hf as [_ (sel & Esel & Hne & Emf)]. simpl in Emf.
  assert (Hs : StronglySorted lt (map index (control_of st P)))
    by (rewrite Hd; apply seq_strongly_sorted).
  assert (Hrs : refint (control_of st P) sel).
  { intros r Hr'. apply Hr. rewrite Esel in Hr'. apply filter_In in Hr'. tauto. }
  destruct (make_fragment_spec _ _ _ _ Hs Hrs Hne (eq_sym Emf)) as (Ha & Hc & Hb).
  split; [exact Ha|]. split; [exact Hb|]. split; [exact Hc|].
  destruct (strictly_sorted_dense_iff _ _ Ha Hc) as [H1 H2].
  rewrite length_map in H1, H2. split.
  - intros E r j Hr' Hj. apply (H1 E (control_index r)); eauto.
  - intros Hdn. apply H2. intros i j (r & Hr' & <-) Hj. eauto.
Qed.

(** C7 (amended): with a monotone UTC date function, splitting a product that
    satisfies [split_pre] (any L0 product; above L0, non-empty Data sorted by time
    with non-negative sample durations) yields a fragment for a day exactly when
    some Data row falls on that day, never two fragments for one day, and no
    fragment with an empty Data table; the L0 product with samples on instrument
    days 100, 101 and 103 yields exactly the fragments for days 100, 101 and 103. *)
Theorem split_fragment_days : forall get_scedays utc_date st P,
  (forall a b, (a <= b)%Q -> (utc_date a <= utc_date b)%Z) ->
  split_pre (p_level P) (data_of st P) ->
  (exists st' outs, split_to_files get_scedays utc_date st P = Ok (st', outs) /\
     NoDup (map fst outs) /\
     (forall o, In o outs -> data_of st' (snd o) <> []) /\
     (forall day, In day (map fst outs) <->
        exists r, In r (data_of st P) /\ day_key get_scedays utc_date (p_level P) r = day)) /\
  (exists st' outs,
     split_to_files Inputs.sceday_of Inputs.utc_date_of Inputs.days3_store Inputs.days3_product
       = Ok (st', outs) /\
     map fst outs = [100; 101; 103]%Z).
Proof.
  intros gs ud st P Hmono Hpre. split.
  - destruct (split_to_files_frags gs ud st P Hmono Hpre)
      as (day_of & days & st' & outs & Hs & Hmap & Hk & Hnd & Hin).
    exists st', outs. split; [exact Hs|].
    assert (Hfst : map fst outs = map fst (fragments day_of days (control_of st P) (data_of st P)))
      by (rewrite <- Hmap, map_map; reflexivity).
    split; [rewrite Hfst; apply fragments_nodup; exact Hnd|]. split.
    + intros o Ho. pose proof (in_outs_fragment _ _ _ _ Hmap Ho) as Hf.
      apply fragments_in in Hf as [_ (sel & _ & Hne & Emf)]. simpl in Emf.
      unfold make_fragment in Emf. injection Emf as _ Ed. rewrite Ed.
      destruct sel; [contradiction|discriminate].
    + intros day. rewrite Hfst, fragments_days. split.
      * intros [_ (r & Hr & E)]. exists r. split; [exact Hr|]. rewrite <- Hk. exact E.
      * intros (r & Hr & E). split; [rewrite <- E, <- Hk; apply Hin; exact Hr|].
        exists r. rewrite Hk. auto.
  - eexists; eexists. split; reflexivity.
Qed.

(** C8: with a monotone UTC date function, splitting a product whose Data is sorted
    by time with non-negative sample durations (no condition for L0 products)
    either fails with [IndexError], for a product above L0 with an empty Data table,
    or succeeds, and the Data rows of all fragments, taken without the
    [control_index] column each fragment renumbers, are a permutation of the
    product's Data rows: no row is dropped and none is duplicated. *)
Theorem split_partition : forall get_scedays utc_date st P,
  (forall a b, (a <= b)%Q -> (utc_date a <= utc_date b)%Z) ->
  is_L0 (p_level P) = true \/
    (Sorted Z.le (map time (data_of st P)) /\
     forall r, In r (data_of st P) -> (0 <= timedel r)%Z) ->
  (is_L0 (p_level P) = false /\ data_of st P = [] /\
   split_to_files get_scedays utc_date st P = Err IndexError) \/
  exists st' outs, split_to_files get_scedays utc_date st P = Ok (st', outs) /\
    Permutation (concat (map (fun o => map payload (data_of st' (snd o))) outs))
                (map payload (data_of st P)).
Proof.
  intros gs ud st P Hmono Hpre.
  assert (Hcase : (is_L0 (p_level P) = false /\ data_of st P = []) \/
                  split_pre (p_level P) (data_of st P)).
  { unfold split_pre. destruct (is_L0 (p_level P)); [right; left; reflexivity|].
    destruct Hpre as [E|[Hs Hd]]; [discriminate|].
    destruct (data_of st P) as [|r0 t] eqn:Ed; [left; auto|].
    right. right. split; [exact Hs|]. split; [exact Hd|]. discriminate. }
  destruct Hcase as [[EL Ed]|Hsp].
  - left. split; [exact EL|]. split; [exact Ed|].
    unfold split_to_files, split_tables. rewrite EL, Ed. reflexivity.
  - right. destruct (split_to_files_frags gs ud st P Hmono Hsp)
      as (day_of & days & st' & outs & Hs & Hmap & _ & Hnd & Hin).
    exists st', outs. split; [exact Hs|].
    replace (concat (map (fun o => map payload (data_of st' (snd o))) outs))
      with (concat (map (fun f => map payload (snd (snd f)))
                      (fragments day_of days (control_of st P) (data_of st P))))
      by (rewrite <- Hmap, map_map; reflexivity).
    apply fragments_perm; auto.
Qed.

(** ** Counterexamples on concrete products *)

(** C2 (counterexample): the L0 product [gap_product], a constructible
    [DefaultProduct] of service type 6, has Control [index] [0; 1; 2], Data sorted by
    time and every [control_index] naming a Control row; on day 101 its samples come
    from packets 0 and 2 only, so that fragment's Control [index] column is [0; 2]. *)
Lemma split_fragment_index_gap :
  buildable Inputs.gap_product = true /\
  map index (control_of Inputs.gap_store Inputs.gap_product) = seq 0 3 /\
  map time (data_of Inputs.gap_store Inputs.gap_product) =
    [100 * Inputs.DAY; 100 * Inputs.DAY + 1; 101 * Inputs.DAY; 101 * Inputs.DAY + 1]%Z /\
  map control_index (data_of Inputs.gap_store Inputs.gap_product) = [0; 1; 0; 2] /\
  exists st' outs,
    split_to_files Inputs.sceday_of Inputs.utc_date_of Inputs.gap_store Inputs.gap_product
      = Ok (st', outs) /\
    map (fun o => (fst o, map index (control_of st' (snd o)))) outs =
      [(100%Z, [0; 1]); (101%Z, [0; 2])].
Proof.
  split; [reflexivity|]. split; [reflexivity|]. split; [reflexivity|]. split; [reflexivity|].
  eexists; eexists. split; reflexivity.
Qed.

(** C7 (counterexample): the L1 product [l1_product] over [unsorted_store] has a
    Data row on UTC day 3, but its rows are not sorted by time: the split walks the
    dates from the first row's (day 5) to the last row's (day 6) and yields no
    fragment for day 3. *)
Lemma split_unsorted_drops_day :
  map (day_key Inputs.sceday_of Inputs.utc_date_of (p_level Inputs.l1_product))
      (data_of Inputs.unsorted_store Inputs.l1_product) = [5; 3; 6]%Z /\
  exists st' outs,
    split_to_files Inputs.sceday_of Inputs.utc_date_of Inputs.unsorted_store Inputs.l1_product
      = Ok (st', outs) /\
    map fst outs = [5; 6]%Z.
Proof.
  split; [reflexivity|]. eexists; eexists. split; reflexivity.
Qed.

(** ** Checks used on concrete inputs *)

Lemma utc_date_of_mono : forall a b, (a <= b)%Q ->
  (Inputs.utc_date_of a <= Inputs.utc_date_of b)%Z.
Proof.
  intros a b H. unfold Inputs.utc_date_of. apply Qfloor_resp_le. unfold Qdiv.
  apply Qmult_le_compat_r; [exact H|]. apply Qinv_le_0_compat.
  unfold Qle. simpl. lia.
Qed.

Lemma refint_check : forall c d,
  forallb (fun r => existsb (Nat.eqb (control_index r)) (map index c)) d = true -> refint c d.
Proof.
  intros c d H r Hr. rewrite forallb_forall in H. apply existsb_eqb_in. apply H. exact Hr.
Qed.

Lemma keys_disjoint_check : forall l1 l2,
  forallb (fun r1 => forallb (fun r2 => negb (time_float r1 =? time_float r2)%Z) l2) l1 = true ->
  keys_disjoint l1 l2.
Proof.
  intros l1 l2 H r1 r2 H1 H2 E. rewrite forallb_forall in H. specialize (H r1 H1).
  rewrite forallb_forall in H. specialize (H r2 H2). rewrite E, Z.eqb_refl in H. discriminate.
Qed.

Lemma timedel_check : forall d,
  forallb (fun r => (0 <=? timedel r)%Z) d = true -> forall r, In r d -> (0 <= timedel r)%Z.
Proof.
  intros d H r Hr. rewrite forallb_forall in H. apply Z.leb_le. apply H. exact Hr.
Qed.


Lemma sorted_check_spec : forall l, sorted_check l = true -> Sorted Z.le l.
Proof.
  induction l as [|x t IH]; intros H; [constructor|].
  destruct t as [|y t']; [repeat constructor|].
  simpl in H. apply andb_prop in H as [H1 H2]. apply Z.leb_le in H1.
  constructor; [apply IH; exact H2|]. constructor. exact H1.
Qed.

(** ** Witnesses *)

Lemma add_type_error_iff_not_instance_witness :
  exists st' r, add (mkRange 0 0) Inputs.merge_store Inputs.prod_a Inputs.prod_b = Ok (st', r) /\
                p_class r = p_class Inputs.prod_a /\ p_level r = p_level Inputs.prod_a.
Proof.
  apply (proj2 (proj2 (add_type_error_iff_not_instance (mkRange 0 0) Inputs.merge_store
                          Inputs.prod_a Inputs.prod_b))).
  - reflexivity.
  - vm_compute. discriminate.
  - vm_compute. discriminate.
Defined.

Lemma add_index_error_iff_empty_witness :
  add (mkRange 0 0) Inputs.mixed_store Inputs.generic_product Inputs.empty_generic_product
    = Err IndexError.
Proof.
  apply (proj1 (proj2 (add_index_error_iff_empty (mkRange 0 0) Inputs.mixed_store
                          Inputs.generic_product Inputs.empty_generic_product))).
  - reflexivity.
  - right. reflexivity.
Defined.

Lemma add_idb_versions_cover_witness :
  exists st' R, add (mkRange 0 0) Inputs.merge_store Inputs.prod_a Inputs.prod_b = Ok (st', R) /\
    (forall k l, In (k, l) (idb_versions Inputs.prod_a) ->
       exists l', dict_get Z.eqb (idb_versions R) k = Some l' /\
                  covers (range_at st' l') (range_at Inputs.merge_store l)) /\
    (forall k l, In (k, l) (idb_versions Inputs.prod_b) ->
       exists l', dict_get Z.eqb (idb_versions R) k = Some l' /\
                  covers (range_at st' l') (range_at Inputs.merge_store l)) /\
    (forall k l', In (k, l') (idb_versions R) -> length (ranges Inputs.merge_store) <= l') /\
    (forall l, l < length (ranges Inputs.merge_store) ->
       range_at st' l = range_at Inputs.merge_store l).
Proof.
  apply add_idb_versions_cover.
  - reflexivity.
  - vm_compute. discriminate.
  - vm_compute. discriminate.
  - reflexivity.
  - reflexivity.
  - simpl. constructor; [intros []|constructor].
Defined.



Lemma add_assoc_content_witness :
  exists st1 AB st2 ABC st3 BC st4 ABC',
    add (mkRange 0 0) Inputs.merge_store Inputs.prod_a Inputs.prod_b = Ok (st1, AB) /\
    add (mkRange 0 0) st1 AB Inputs.prod_c = Ok (st2, ABC) /\
    add (mkRange 0 0) Inputs.merge_store Inputs.prod_b Inputs.prod_c = Ok (st3, BC) /\
    add (mkRange 0 0) st3 Inputs.prod_a BC = Ok (st4, ABC') /\
    forall x,
      (In x (content (data_of st2 ABC)) <-> In x (content (data_of st4 ABC'))) /\
      (In x (content (data_of st2 ABC)) <->
         first_rows_content (data_of Inputs.merge_store Inputs.prod_a) x \/
         first_rows_content (data_of Inputs.merge_store Inputs.prod_b) x \/
         first_rows_content (data_of Inputs.merge_store Inputs.prod_c) x).
Proof.
  apply add_assoc_content.
  - reflexivity.
  - reflexivity.
  - vm_compute. discriminate.
  - vm_compute. discriminate.
  - vm_compute. discriminate.
  - simpl. lia.
  - simpl. lia.
  - apply keys_disjoint_check. reflexivity.
  - apply keys_disjoint_check. reflexivity.
  - apply keys_disjoint_check. reflexivity.
Defined.

Lemma split_fragment_control_index_witness :
  exists st' outs,
    split_to_files Inputs.sceday_of Inputs.utc_date_of Inputs.gap_store Inputs.gap_product
      = Ok (st', outs) /\
    forall o, In o outs ->
      StronglySorted lt (map index (control_of st' (snd o))) /\
      In 0 (map index (control_of st' (snd o))) /\
      (forall i, In i (map index (control_of st' (snd o))) <->
                 exists r, In r (data_of st' (snd o)) /\ control_index r = i).
Proof.
  destruct (split_to_files Inputs.sceday_of Inputs.utc_date_of Inputs.gap_store
              Inputs.gap_product) as [[st' outs]|e] eqn:E;
    [|vm_compute in E; discriminate E].
  exists st', outs. split; [reflexivity|]. intros o Ho.
  destruct (split_fragment_control_index Inputs.sceday_of Inputs.utc_date_of
              Inputs.gap_store Inputs.gap_product st' outs eq_refl
              (refint_check (control_of Inputs.gap_store Inputs.gap_product)
                 (data_of Inputs.gap_store Inputs.gap_product) eq_refl) E o Ho) as (A & B & C & _).
  auto.
Defined.

Lemma split_fragment_days_witness :
  exists st' outs,
    split_to_files Inputs.sceday_of Inputs.utc_date_of Inputs.sorted_store Inputs.l1_product
      = Ok (st', outs) /\
    NoDup (map fst outs) /\
    (forall o, In o outs -> data_of st' (snd o) <> []) /\
    (forall day, In day (map fst outs) <->
       exists r, In r (data_of Inputs.sorted_store Inputs.l1_product) /\
                 day_key Inputs.sceday_of Inputs.utc_date_of (p_level Inputs.l1_product) r = day).
Proof.
  refine (proj1 (split_fragment_days Inputs.sceday_of Inputs.utc_date_of Inputs.sorted_store
                   Inputs.l1_product utc_date_of_mono _)).
  right. split; [apply sorted_check_spec; reflexivity|].
  split; [apply timedel_check; reflexivity|]. vm_compute. discriminate.
Defined.

Lemma split_partition_witness :
  (is_L0 (p_level Inputs.l1_product) = false /\
   data_of Inputs.sorted_store Inputs.l1_product = [] /\
   split_to_files Inputs.sceday_of Inputs.utc_date_of Inputs.sorted_store Inputs.l1_product
     = Err IndexError) \/
  exists st' outs,
    split_to_files Inputs.sceday_of Inputs.utc_date_of Inputs.sorted_store Inputs.l1_product
      = Ok (st', outs) /\
    Permutation (concat (map (fun o => map payload (data_of st' (snd o))) outs))
                (map payload (data_of Inputs.sorted_store Inputs.l1_product)).
Proof.
  apply split_partition.
  - exact utc_date_of_mono.
  - right. split; [apply sorted_check_spec; reflexivity|]. apply timedel_check. reflexivity.
Defined.

(** * Further properties of the product engine *)

Lemma ascii_compare_trans : forall a b c,
  Ascii.compare a b = Lt -> Ascii.compare b c = Lt -> Ascii.compare a c = Lt.
Proof.
  unfold Ascii.compare. intros a b c H1 H2.
  apply N.compare_lt_iff in H1. apply N.compare_lt_iff in H2.
  apply N.compare_lt_iff. exact (N.lt_trans _ _ _ H1 H2).
Qed.

Lemma ascii_compare_eq : forall a b, Ascii.compare a b = Eq -> a = b.
Proof. apply Ascii.compare_eq_iff. Qed.

Lemma ascii_compare_refl : forall a, Ascii.compare a a = Eq.
Proof. intros a. unfold Ascii.compare. apply N.compare_refl. Qed.

Lemma str_lt_trans : forall a b c, str_lt a b -> str_lt b c -> str_lt a c.
Proof.
  unfold str_lt. induction a as [|x a IH]; intros [|y b] [|z c]; simpl; try discriminate; auto.
  destruct (Ascii.compare x y) eqn:Exy; try discriminate;
  destruct (Ascii.compare y z) eqn:Eyz; try discriminate; intros H1 H2.
  - apply ascii_compare_eq in Exy. apply ascii_compare_eq in Eyz. subst.
    rewrite ascii_compare_refl. eauto.
  - apply ascii_compare_eq in Exy. subst. rewrite Eyz. reflexivity.
  - apply ascii_compare_eq in Eyz. subst. rewrite Exy. reflexivity.
  - rewrite (ascii_compare_trans _ _ _ Exy Eyz). reflexivity.
Qed.


Lemma leb_false_flip : forall a b, String.leb a b = false -> String.leb b a = true.
Proof. intros a b H. destruct (String.leb_total a b); congruence. Qed.

Lemma str_le_neq_lt : forall a b, str_le a b -> a <> b -> str_lt a b.
Proof.
  unfold str_le, str_lt, String.leb. intros a b H N.
  destruct (String.compare a b) eqn:E; try discriminate; auto.
  apply String.compare_eq_iff in E. contradiction.
Qed.

Lemma insert_str_perm : forall x l, Permutation (insert_str x l) (x :: l).
Proof.
  intros x l. induction l as [|y t IH]; simpl; [auto|].
  destruct (String.leb x y); [auto|].
  eapply perm_trans; [apply perm_skip, IH|apply perm_swap].
Qed.

Lemma sort_str_perm : forall l, Permutation (sort_str l) l.
Proof.
  induction l as [|x t IH]; simpl; [auto|].
  eapply perm_trans; [apply insert_str_perm|auto].
Qed.

Lemma insert_str_sorted : forall x l, Sorted str_le l -> Sorted str_le (insert_str x l).
Proof.
  intros x l H. induction H as [|y t Ht IH Hhd]; simpl; [auto|].
  destruct (String.leb x y) eqn:Exy.
  - constructor; [constructor; auto|constructor; exact Exy].
  - apply leb_false_flip in Exy. constructor; [exact IH|].
    destruct t as [|z t']; simpl; [constructor; exact Exy|].
    inversion Hhd; subst.
    destruct (String.leb x z); constructor; auto.
Qed.

Lemma sort_str_sorted : forall l, Sorted str_le (sort_str l).
Proof. induction l; simpl; auto using insert_str_sorted. Qed.

Lemma dedup_cons2 : forall x y t,
  dedup_sorted (x :: y :: t) =
  if String.eqb x y then dedup_sorted (y :: t) else x :: dedup_sorted (y :: t).
Proof. reflexivity. Qed.

Lemma dedup_sorted_in : forall l s, In s (dedup_sorted l) <-> In s l.
Proof.
  induction l as [|x t IH]; intros s; [simpl; tauto|].
  destruct t as [|y t']; [simpl; tauto|].
  rewrite dedup_cons2. destruct (String.eqb_spec x y) as [->|Hne].
  - rewrite IH. simpl. tauto.
  - simpl In at 1. rewrite IH. simpl. tauto.
Qed.

Lemma dedup_sorted_head : forall y t, exists r, dedup_sorted (y :: t) = y :: r.
Proof.
  intros y t. revert y. induction t as [|z t IH]; intros y; [exists []; reflexivity|].
  rewrite dedup_cons2. destruct (String.eqb_spec y z) as [->|Hne]; [apply IH|eauto].
Qed.

Lemma dedup_sorted_sorted : forall l, Sorted str_le l -> Sorted str_lt (dedup_sorted l).
Proof.
  induction l as [|x t IH]; intros H; [constructor|].
  destruct t as [|y t']; [repeat constructor|].
  apply Sorted_inv in H as [Ht Hhd]. apply HdRel_inv in Hhd.
  rewrite dedup_cons2. destruct (String.eqb_spec x y) as [->|Hne]; [auto|].
  constructor; [auto|]. destruct (dedup_sorted_head y t') as [r Er]. rewrite Er.
  constructor. apply str_le_neq_lt; auto.
Qed.

Lemma np_unique_spec : forall l,
  StronglySorted str_lt (np_unique l) /\ (forall s, In s (np_unique l) <-> In s l).
Proof.
  intros l. unfold np_unique. split.
  - apply Sorted_StronglySorted; [exact str_lt_trans|].
    apply dedup_sorted_sorted, sort_str_sorted.
  - intros s. rewrite dedup_sorted_in. split; intros H.
    + apply (Permutation_in _ (sort_str_perm l)). exact H.
    + apply (Permutation_in _ (Permutation_sym (sort_str_perm l))). exact H.
Qed.

(** [GenericProduct.parent] and [GenericProduct.raw] list the distinct values of the
    Control [parent] and [raw_file] columns, strictly increasing in string order. *)
Theorem product_parent_raw_spec : forall st P,
  StronglySorted str_lt (product_parent st P) /\
  (forall s, In s (product_parent st P) <-> exists c, In c (control_of st P) /\ parent c = s) /\
  StronglySorted str_lt (product_raw st P) /\
  (forall s, In s (product_raw st P) <-> exists c, In c (control_of st P) /\ raw_file c = s).
Proof.
  intros st P. unfold product_parent, product_raw.
  destruct (np_unique_spec (map parent (control_of st P))) as [H1 H2].
  destruct (np_unique_spec (map raw_file (control_of st P))) as [H3 H4].
  split; [exact H1|]. split; [intros s; rewrite H2, in_map_iff; firstorder|].
  split; [exact H3|]. intros s; rewrite H4, in_map_iff; firstorder.
Qed.

Lemma str_compare_refl : forall p, String.compare p p = Eq.
Proof.
  induction p as [|c q IHq]; [reflexivity|]. simpl. rewrite ascii_compare_refl. exact IHq.
Qed.

Lemma np_unique_repeat : forall p n, np_unique (repeat p (S n)) = [p].
Proof.
  intros p n. unfold np_unique.
  assert (Hs : forall k, sort_str (repeat p k) = repeat p k).
  { induction k as [|k IH]; [reflexivity|]. simpl. rewrite IH.
    destruct k; simpl; [reflexivity|]. unfold String.leb.
    rewrite str_compare_refl. reflexivity. }
  rewrite Hs. induction n as [|n IH]; [reflexivity|].
  change (repeat p (S (S n))) with (p :: p :: repeat p n).
  rewrite dedup_cons2, String.eqb_refl. exact IH.
Qed.


Lemma control_of_replace_parent : forall st q n p,
  control_ref p = control_ref q ->
  control_of (replace_parent st q n) p = map (fun c => set_parent c n) (control_of st p).
Proof.
  intros st q n p E. unfold replace_parent, control_of, ctable_of, set_control. simpl. rewrite E.
  destruct (Nat.lt_ge_cases (control_ref q) (length (controls st))) as [H|H].
  - rewrite nth_replace_nth by exact H. rewrite Nat.eqb_refl. reflexivity.
  - rewrite (nth_overflow (controls st)) by exact H.
    rewrite nth_overflow; [reflexivity|]. rewrite replace_nth_length. exact H.
Qed.

Lemma new_from_ok : forall cls P l,
  new_from cls P = Ok l ->
  cls = DefaultProduct /\ default_buildable (service_type P) = true /\
  l = mkProduct DefaultProduct (service_type P) (service_subtype P) (ssid P)
        (control_ref P) (data_ref P) (idb_versions P) (Some L0).
Proof.
  intros cls P l H. destruct cls; try discriminate H. unfold new_from in H.
  destruct (default_buildable (service_type P)) eqn:B; [|discriminate H].
  injection H as <-. auto.
Qed.

Lemma from_level0_ok : forall raw_to_eng cls st P parent st' l1,
  from_level0 raw_to_eng cls st P parent = Ok (st', l1) ->
  exists l, new_from cls P = Ok l /\ l1 = set_level l (Some L1) /\
    st' = set_data (replace_parent st l parent) (data_ref l)
            (raw_to_eng (data_of (replace_parent st l parent) l)).
Proof.
  intros raw_to_eng cls st P parent st' l1 H. unfold from_level0 in H.
  destruct (new_from cls P) as [l|e]; [|discriminate H].
  injection H as <- <-. eauto.
Qed.

Lemma from_level0_control : forall raw_to_eng cls st P parent st' l1 q,
  from_level0 raw_to_eng cls st P parent = Ok (st', l1) ->
  control_ref q = control_ref P ->
  control_of st' q = map (fun c => set_parent c parent) (control_of st P).
Proof.
  intros raw_to_eng cls st P parent st' l1 q H E.
  destruct (from_level0_ok _ _ _ _ _ _ _ H) as (l & Hl & _ & ->).
  destruct (new_from_ok _ _ _ Hl) as (_ & _ & ->).
  transitivity (control_of (replace_parent st (mkProduct DefaultProduct (service_type P)
    (service_subtype P) (ssid P) (control_ref P) (data_ref P) (idb_versions P) (Some L0))
    parent) q); [reflexivity|].
  rewrite control_of_replace_parent by exact E.
  unfold control_of, ctable_of. rewrite E. reflexivity.
Qed.

Lemma product_parent_set : forall st' q st P n,
  control_of st' q = map (fun c => set_parent c n) (control_of st P) ->
  control_of st P <> [] -> product_parent st' q = [n].
Proof.
  intros st' q st P n E H. unfold product_parent. rewrite E, map_map. simpl.
  destruct (control_of st P) as [|c cs]; [contradiction|].
  rewrite map_const. apply np_unique_repeat.
Qed.

(** After [L1Mixin.from_level0] with parent name [parent] on a product with at least one
    Control row, both the new L1 product and the L0 product (which shares its Control
    table) report [parent] as their only parent; [find_parent_files] of the L1 product
    searches [parent] in the L0 directory, and that of an L0 input in the LB directory. *)
Theorem from_level0_parent_files : forall path rglob raw_to_eng cls st P parent root st' l1,
  control_of st P <> [] ->
  from_level0 raw_to_eng cls st P parent = Ok (st', l1) ->
  product_parent st' l1 = [parent] /\ product_parent st' P = [parent] /\
  find_parent_files path rglob st' l1 root = rglob root "L0"%string parent /\
  (p_level P = Some L0 -> find_parent_files path rglob st' P root = rglob root "LB"%string parent).
Proof.
  intros path rglob raw_to_eng cls st P parent root st' l1 Hne Ef.
  destruct (from_level0_ok _ _ _ _ _ _ _ Ef) as (l & Hl & Hl1 & _).
  destruct (new_from_ok _ _ _ Hl) as (_ & _ & El). subst l.
  assert (Hc : forall q, control_ref q = control_ref P ->
                 control_of st' q = map (fun c => set_parent c parent) (control_of st P)).
  { intros q Eq. apply (from_level0_control _ _ _ _ _ _ _ _ Ef Eq). }
  assert (H1 : product_parent st' l1 = [parent]).
  { apply (product_parent_set _ _ st P); auto. apply Hc. subst l1. reflexivity. }
  assert (H2 : product_parent st' P = [parent]).
  { apply (product_parent_set _ _ st P); auto. }
  split; [exact H1|]. split; [exact H2|]. split.
  - unfold find_parent_files. rewrite Hl1 at 1. simpl p_level. cbv iota.
    rewrite H1. simpl. apply app_nil_r.
  - intros HL. unfold find_parent_files. rewrite HL. rewrite H2. simpl. apply app_nil_r.
Qed.

(** [L2Mixin.from_level1]: when [cls(...)] raises, the exception comes before any
    change of the store; otherwise the call raises [ValueError] exactly when the L1
    product has no FITS header, after the [parent] column has already been replaced,
    and without that error it returns one L2 product of class [cls] carrying the
    stripped copy of the header. *)
Theorem from_level1_fits_header : forall header copy_strip cls st (l1 : hproduct header) parent,
  (forall e, new_from cls (hp_product l1) = Err e ->
     from_level1_obj copy_strip cls st l1 parent = (st, Err e)) /\
  (forall l2, new_from cls (hp_product l1) = Ok l2 ->
     fst (from_level1_obj copy_strip cls st l1 parent) = replace_parent st l2 (parent_name parent) /\
     (snd (from_level1_obj copy_strip cls st l1 parent) = Err ValueError <->
        hp_fits_header l1 = None) /\
     (forall h, hp_fits_header l1 = Some h ->
        exists l2', snd (from_level1_obj copy_strip cls st l1 parent) = Ok [l2'] /\
                    hp_fits_header l2' = Some (copy_strip h) /\
                    p_level (hp_product l2') = Some L2 /\ p_class (hp_product l2') = cls)).
Proof.
  intros header copy_strip cls st l1 parent. unfold from_level1_obj, from_level1.
  split; [intros e E; rewrite E; reflexivity|].
  intros l2 E. rewrite E.
  destruct (new_from_ok _ _ _ E) as (-> & _ & ->).
  destruct (hp_fits_header l1) as [h|]; simpl.
  - split; [reflexivity|]. split; [split; [discriminate|discriminate]|].
    intros h' E'. injection E' as <-. eexists. split; [reflexivity|]. simpl. auto.
  - split; [reflexivity|]. split; [tauto|]. intros h' E'. discriminate E'.
Qed.

(** A product made by [from_level0] has no FITS header, so [DefaultProduct.from_level1]
    on it always raises [ValueError]; the shared Control table of the original product
    is left with the parent name of the failed L2 call. *)
Theorem from_level0_then_level1_no_header :
  forall header copy_strip raw_to_eng cls0 st (P : hproduct header) p0 p1 st1 l1,
  from_level0_obj raw_to_eng cls0 st P p0 = Ok (st1, l1) ->
  let '(st2, r) := from_level1_obj copy_strip DefaultProduct st1 l1 p1 in
  r = Err ValueError /\
  control_of st2 (hp_product P) =
    map (fun c => set_parent c (parent_name p1)) (control_of st (hp_product P)).
Proof.
  intros header copy_strip raw_to_eng cls0 st P p0 p1 st1 l1 H.
  unfold from_level0_obj in H.
  destruct (from_level0 raw_to_eng cls0 st (hp_product P) p0) as [[st1' l1']|e] eqn:E0;
    [|discriminate H].
  injection H as <- <-.
  destruct (from_level0_ok _ _ _ _ _ _ _ E0) as (l & Hl & Hl1 & _).
  destruct (new_from_ok _ _ _ Hl) as (_ & B & El). subst l.
  assert (En : new_from DefaultProduct l1' =
            Ok (mkProduct DefaultProduct (service_type l1') (service_subtype l1') (ssid l1')
                  (control_ref l1') (data_ref l1') (idb_versions l1') (Some L0))).
  { subst l1'. unfold new_from. simpl. rewrite B. reflexivity. }
  unfold from_level1_obj, from_level1. cbn [hp_product hp_fits_header].
  rewrite En. simpl. split; [reflexivity|].
  rewrite control_of_replace_parent by (subst l1'; reflexivity).
  rewrite (from_level0_control _ _ _ _ _ _ _ _ E0) by (subst l1'; reflexivity).
  rewrite map_map. reflexivity.
Qed.


(** The time-stamp split of [ControlSci.from_packets] keeps one (coarse, fine) pair per
    stamp with fine in [0, 65536); when any stamp exceeds 2^32 - 1 every stamp is read
    as coarse * 65536 + fine, otherwise every stamp is read as whole seconds. *)
Theorem split_time_stamps_ticks : forall ts,
  length (split_time_stamps ts) = length ts /\
  (forall cf, In cf (split_time_stamps ts) -> (0 <= snd cf < MAX_FINE)%Z) /\
  map scet_ticks (split_time_stamps ts) =
    (if existsb (fun t => (2 ^ 32 - 1 <? t)%Z) ts then ts
     else map (fun t => t * MAX_FINE)%Z ts).
Proof.
  intros ts. unfold split_time_stamps.
  assert (Hm : (Z.shiftl 1 16 - 1 = Z.ones 16)%Z) by reflexivity.
  destruct (existsb _ ts).
  - split; [apply length_map|]. split.
    + intros cf Hcf. apply in_map_iff in Hcf as [t [<- _]]. cbn [snd].
      rewrite Hm, Z.land_ones by lia. unfold MAX_FINE. apply Z.mod_pos_bound. reflexivity.
    + rewrite map_map. rewrite <- (map_id ts) at 2. apply map_ext. intros t.
      unfold scet_ticks. cbn [fst snd]. rewrite Hm, Z.land_ones, Z.shiftr_div_pow2 by lia.
      unfold MAX_FINE. change (2 ^ 16)%Z with 65536%Z.
      rewrite Z.mul_comm. symmetry. apply Z.div_mod. discriminate.
  - split; [apply length_map|]. split.
    + intros cf Hcf. apply in_map_iff in Hcf as [t [<- _]]. simpl. unfold MAX_FINE. lia.
    + rewrite map_map. apply map_ext. intros t. unfold scet_ticks. simpl. lia.
Qed.

Lemma strongly_sorted_map_mono : forall A B (R : A -> A -> Prop) (R' : B -> B -> Prop) (g : A -> B) l,
  (forall a b, R a b -> R' (g a) (g b)) -> StronglySorted R l -> StronglySorted R' (map g l).
Proof.
  intros A B R R' g l Hg H. induction H as [|x t Ht IH Hall]; simpl; constructor; auto.
  rewrite Forall_map. eapply Forall_impl; [|exact Hall]. auto.
Qed.

Lemma get_dates_sorted : forall a b, StronglySorted Z.lt (get_dates a b).
Proof.
  intros a b. unfold get_dates. apply (strongly_sorted_map_mono _ _ lt).
  - intros x y H. lia.
  - apply seq_strongly_sorted.
Qed.

Lemma fragments_sorted : forall day_of days ctrl data,
  StronglySorted Z.lt days -> StronglySorted Z.lt (map fst (fragments day_of days ctrl data)).
Proof.
  intros day_of days ctrl data Hs. induction Hs as [|d ds Hs IH Hall]; simpl; [constructor|].
  destruct (filter (fun r => in_day d (day_of r)) data); simpl; [exact IH|].
  constructor; [exact IH|]. rewrite Forall_forall in Hall |- *. intros x Hx.
  apply fragments_days in Hx. apply Hall. tauto.
Qed.

Lemma split_tables_ok_days : forall gs ud lvl ctrl data frags,
  split_tables gs ud lvl ctrl data = Ok frags ->
  exists day_of days, frags = fragments day_of days ctrl data /\
    (forall r, day_of r = day_key gs ud lvl r) /\ StronglySorted Z.lt days.
Proof.
  intros gs ud lvl ctrl data frags H. unfold split_tables, day_key in *.
  destruct (is_L0 lvl).
  - injection H as <-. eexists; eexists. split; [reflexivity|]. split; [reflexivity|].
    apply Sorted_StronglySorted; [intros x y z; unfold klt; lia|].
    apply (unique_by_sorted (fun d : Z => d)).
  - destruct (scet_timerange data) as [[s e]|]; [|discriminate].
    injection H as <-. eexists; eexists. split; [reflexivity|]. split; [reflexivity|].
    apply get_dates_sorted.
Qed.

(** [split_to_files] yields its fragments in strictly increasing day order. *)
Theorem split_to_files_days_increasing : forall gs ud st P st' outs,
  split_to_files gs ud st P = Ok (st', outs) -> StronglySorted Z.lt (map fst outs).
Proof.
  intros gs ud st P st' outs H.
  destruct (split_to_files_ok _ _ _ _ _ _ H) as (frags & Es & Hmap & _).
  destruct (split_tables_ok_days _ _ _ _ _ _ Es) as (day_of & days & -> & _ & Hs).
  replace (map fst outs) with (map fst (fragments day_of days (control_of st P) (data_of st P)))
    by (rewrite <- Hmap, map_map; reflexivity).
  apply fragments_sorted. exact Hs.
Qed.

(** Each fragment of [split_to_files] holds, apart from [control_index], exactly the
    Data rows of the product whose day is the fragment's day, in their original order. *)
Theorem split_fragment_rows : forall gs ud st P st' outs o,
  split_to_files gs ud st P = Ok (st', outs) -> In o outs ->
  map payload (data_of st' (snd o)) =
  map payload (filter (fun r => Z.eqb (day_key gs ud (p_level P) r) (fst o)) (data_of st P)).
Proof.
  intros gs ud st P st' outs o H Ho.
  destruct (split_to_files_ok _ _ _ _ _ _ H) as (frags & Es & Hmap & _).
  destruct (split_tables_ok_days _ _ _ _ _ _ Es) as (day_of & days & Ef & Hk & _).
  rewrite Ef in Hmap. pose proof (in_outs_fragment _ _ _ _ Hmap Ho) as Hf.
  apply fragments_in in Hf as [_ (sel & Esel & _ & Emf)]. simpl in Esel, Emf.
  assert (Ed : data_of st' (snd o) = snd (make_fragment (control_of st P) sel))
    by (rewrite <- Emf; reflexivity).
  rewrite Ed, make_fragment_payload, Esel. f_equal. apply filter_ext. intros r. rewrite <- Hk.
  destruct (in_day (fst o) (day_of r)) eqn:E1.
  - apply in_day_iff in E1. symmetry. apply Z.eqb_eq. exact E1.
  - symmetry. apply Z.eqb_neq. intros E2. apply in_day_iff in E2. congruence.
Qed.

(** [split_to_files] fails exactly for a product above L0 with an empty Data table, and
    then with [IndexError]. *)
Theorem split_to_files_errors : forall gs ud st P e,
  split_to_files gs ud st P = Err e <->
  e = IndexError /\ is_L0 (p_level P) = false /\ data_of st P = [].
Proof.
  intros gs ud st P e. unfold split_to_files, split_tables.
  destruct (is_L0 (p_level P)) eqn:EL; simpl.
  - split; [discriminate|]. intros (_ & E & _). discriminate.
  - destruct (data_of st P) as [|r0 t] eqn:Ed; simpl.
    + split; [intros H; injection H as <-; auto|]. intros (-> & _ & _). reflexivity.
    + split; [discriminate|]. intros (_ & _ & E). discriminate.
Qed.

Lemma emit_frame : forall bits frags st self st' outs,
  emit st self bits frags = (st', outs) ->
  ranges st' = ranges st /\
  map (fun o => control_ref (snd o)) outs = seq (length (controls st)) (length outs) /\
  map (fun o => data_ref (snd o)) outs = seq (length (datas st)) (length outs) /\
  (forall o, In o outs -> service_type (snd o) = service_type self /\
     service_subtype (snd o) = service_subtype self /\ ssid (snd o) = ssid self).
Proof.
  intros bits.
  induction frags as [|[day [c d]] rest IH]; intros st self st' outs H; simpl in H.
  - inversion H; subst. split; [reflexivity|]. split; [reflexivity|]. split; [reflexivity|].
    intros o [].
  - destruct (emit (mkStore (controls st ++ [mkCTable (fst (bits day)) c])
                      (datas st ++ [mkDTable (snd (bits day)) d]) (ranges st)) self bits rest)
      as [st3 outs3] eqn:E.
    inversion H; subst st' outs; clear H.
    destruct (IH _ _ _ _ E) as (Hr & Hc & Hd & Hm). simpl in Hr, Hc, Hd.
    rewrite length_app in Hc, Hd. simpl in Hc, Hd. rewrite Nat.add_1_r in Hc, Hd.
    split; [exact Hr|]. split; [simpl; rewrite Hc; reflexivity|].
    split; [simpl; rewrite Hd; reflexivity|].
    intros o [<-|Ho]; [simpl; auto|]. apply Hm. exact Ho.
Qed.

(** [split_to_files] only appends tables to the store: the existing tables and ranges
    are unchanged, each fragment gets its own new Control and Data table (consecutive
    new references), and every fragment shares the [idb_versions] of the product and
    copies its class, level, service type, subtype and SSID. *)
Theorem split_to_files_frame : forall gs ud st P st' outs,
  split_to_files gs ud st P = Ok (st', outs) ->
  (exists ec, controls st' = controls st ++ ec) /\ (exists ed, datas st' = datas st ++ ed) /\
  ranges st' = ranges st /\
  map (fun o => control_ref (snd o)) outs = seq (length (controls st)) (length outs) /\
  map (fun o => data_ref (snd o)) outs = seq (length (datas st)) (length outs) /\
  (forall o, In o outs ->
     idb_versions (snd o) = idb_versions P /\ p_class (snd o) = p_class P /\
     p_level (snd o) = p_level P /\ service_type (snd o) = service_type P /\
     service_subtype (snd o) = service_subtype P /\ ssid (snd o) = ssid P).
Proof.
  intros gs ud st P st' outs H. unfold split_to_files in H.
  destruct (split_tables gs ud (p_level P) (control_of st P) (data_of st P)) as [frags|e];
    [|discriminate]. injection H as Hem.
  destruct (emit_spec _ _ _ _ _ _ Hem) as (Hc & Hd & _ & Hcls).
  destruct (emit_frame _ _ _ _ _ _ Hem) as (Hr & Hcr & Hdr & Hm).
  split; [exact Hc|]. split; [exact Hd|]. split; [exact Hr|].
  split; [exact Hcr|]. split; [exact Hdr|].
  intros o Ho. destruct (Hcls o Ho) as (A & B & C). destruct (Hm o Ho) as (D & E & F). auto.
Qed.

Section MapKey.
Context {A B : Type} (g : A -> B) (h : B -> Z).

Lemma insert_by_map : forall x l,
  map g (insert_by (fun a => h (g a)) x l) = insert_by h (g x) (map g l).
Proof.
  intros x l. induction l as [|y t IH]; simpl; [reflexivity|].
  destruct (h (g x) <=? h (g y))%Z; simpl; [reflexivity|]. rewrite IH. reflexivity.
Qed.

Lemma sort_by_map : forall l, map g (sort_by (fun a => h (g a)) l) = sort_by h (map g l).
Proof. induction l as [|x t IH]; simpl; [reflexivity|]. rewrite insert_by_map, IH. reflexivity. Qed.

Lemma first_of_groups_map : forall l prev,
  map g (first_of_groups (fun a => h (g a)) prev l) = first_of_groups h prev (map g l).
Proof.
  induction l as [|x t IH]; intros prev; simpl; [reflexivity|].
  destruct prev as [p|]; [destruct (p =? h (g x))%Z|]; simpl; rewrite ?IH; reflexivity.
Qed.

Lemma unique_by_map : forall l, map g (unique_by (fun a => h (g a)) l) = unique_by h (map g l).
Proof. intros l. unfold unique_by. rewrite first_of_groups_map, sort_by_map. reflexivity. Qed.

End MapKey.

Lemma sorted_klt_eq : forall A (key : A -> Z) l1 l2,
  Sorted (klt key) l1 -> Sorted (klt key) l2 -> (forall x, In x l1 <-> In x l2) -> l1 = l2.
Proof.
  intros A key l1 l2 H1 H2 Hm.
  apply Sorted_StronglySorted in H1; [|intros a b c; unfold klt; lia].
  apply Sorted_StronglySorted in H2; [|intros a b c; unfold klt; lia].
  revert l2 H2 Hm. induction H1 as [|a t1 H1 IH A1]; intros [|b t2] H2 Hm; auto.
  - exfalso. apply (proj2 (Hm b)). left. reflexivity.
  - exfalso. apply (proj1 (Hm a)). left. reflexivity.
  - inversion H2 as [|? ? H2' A2]; subst.
    rewrite Forall_forall in A1, A2. unfold klt in A1, A2.
    assert (a = b).
    { destruct (proj1 (Hm a) (or_introl eq_refl)) as [E|Ha]; auto.
      destruct (proj2 (Hm b) (or_introl eq_refl)) as [E|Hb]; auto.
      specialize (A1 b Hb). specialize (A2 a Ha). lia. }
    subst b. f_equal. apply IH; auto. intros x. split; intros Hx.
    + destruct (proj1 (Hm x) (or_intror Hx)) as [E|H]; auto.
      subst x. specialize (A1 a Hx). lia.
    + destruct (proj2 (Hm x) (or_intror Hx)) as [E|H]; auto.
      subst x. specialize (A2 a Hx). lia.
Qed.

Lemma unique_by_app_comm : forall l1 l2, keys_disjoint l1 l2 ->
  unique_by time_float (l1 ++ l2) = unique_by time_float (l2 ++ l1).
Proof.
  intros l1 l2 Hdis. apply (sorted_klt_eq _ time_float); [apply unique_by_sorted..|].
  intros x. rewrite !unique_by_in. unfold first_with. rewrite !find_app.
  destruct (find (fun y => (time_float y =? time_float x)%Z) l1) as [a|] eqn:E1;
    destruct (find (fun y => (time_float y =? time_float x)%Z) l2) as [b|] eqn:E2;
    try tauto.
  exfalso. apply find_some in E1 as [I1 K1]. apply find_some in E2 as [I2 K2].
  apply Z.eqb_eq in K1, K2. apply (Hdis a b I1 I2). congruence.
Qed.

Lemma combine_tables_payload : forall ib cb sc sd oc od b c d,
  combine_tables ib cb sc sd oc od b = (c, d) ->
  map payload d = map payload (unique_by time_float (if b then sd ++ od else od ++ sd)).
Proof.
  intros ib cb sc sd oc od b c d H.
  rewrite (combine_tables_map _ payload _ _ _ _ _ _ _ _ _ (fun r => eq_refl) H).
  rewrite <- (map_map snd payload). f_equal.
  change tkey with (fun a : old_index * drow => time_float (snd a)).
  rewrite unique_by_map. f_equal.
  destruct b; rewrite map_app; unfold tag_data; rewrite !map_map; simpl; rewrite !map_id;
    reflexivity.
Qed.

(** For same-class products with non-empty Data whose rounded time keys are disjoint,
    or whose start times differ, [A + B] and [B + A] have the same Data rows apart
    from [control_index], in the same order. *)
Theorem add_commutes_payload : forall dflt st A B,
  p_class A = p_class B -> data_of st A <> [] -> data_of st B <> [] ->
  (keys_disjoint (data_of st A) (data_of st B) \/
   forall sA eA sB eB, scet_timerange (data_of st A) = Some (sA, eA) ->
     scet_timerange (data_of st B) = Some (sB, eB) -> ~ (sA == sB)%Q) ->
  exists st1 AB st2 BA, add dflt st A B = Ok (st1, AB) /\ add dflt st B A = Ok (st2, BA) /\
    map payload (data_of st1 AB) = map payload (data_of st2 BA).
Proof.
  intros dflt st A B Hcl HA HB Hcase.
  assert (I1 : isinstance (p_class B) (p_class A) = true) by (rewrite Hcl; apply isinstance_refl).
  assert (I2 : isinstance (p_class A) (p_class B) = true) by (rewrite Hcl; apply isinstance_refl).
  destruct (add_ok_class_level dflt st A B I1 HA HB) as (st1 & AB & E1 & _ & _).
  destruct (add_ok_class_level dflt st B A I2 HB HA) as (st2 & BA & E2 & _ & _).
  exists st1, AB, st2, BA. split; [exact E1|]. split; [exact E2|].
  destruct (add_ok_tables _ _ _ _ _ _ E1) as (s0 & e0 & s1 & e1 & S0 & S1 & C1).
  destruct (add_ok_tables _ _ _ _ _ _ E2) as (s1' & e1' & s0' & e0' & S1' & S0' & C2).
  rewrite S0 in S0'. rewrite S1 in S1'. injection S0' as <- <-. injection S1' as <- <-.
  rewrite (combine_tables_payload _ _ _ _ _ _ _ _ _ C1),
          (combine_tables_payload _ _ _ _ _ _ _ _ _ C2).
  destruct (Qle_bool s0 s1) eqn:Eb; destruct (Qle_bool s1 s0) eqn:Eb'; try reflexivity.
  - f_equal. apply unique_by_app_comm.
    destruct Hcase as [Hd|Hne]; [exact Hd|]. exfalso.
    apply (Hne s0 e0 s1 e1 S0 S1). apply Qle_antisym; apply Qle_bool_iff; assumption.
  - exfalso. destruct (Qlt_le_dec s0 s1) as [Hlt|Hle].
    + apply Qlt_le_weak, Qle_bool_iff in Hlt. congruence.
    + apply Qle_bool_iff in Hle. congruence.
Qed.

(** A successful [A + B] only appends one new Control and one new Data table, which
    the result refers to, and the result keeps [A]'s class, level, service type,
    subtype and SSID. *)
Theorem add_result_frame : forall dflt st self other st' R,
  add dflt st self other = Ok (st', R) ->
  (exists c, controls st' = controls st ++ [c]) /\ (exists d, datas st' = datas st ++ [d]) /\
  control_ref R = length (controls st) /\ data_ref R = length (datas st) /\
  p_class R = p_class self /\ p_level R = p_level self /\ service_type R = service_type self /\
  service_subtype R = service_subtype self /\ ssid R = ssid self.
Proof.
  intros dflt st self other st' R H.
  destruct (add_tables_frame _ _ _ _ _ _ H) as (Hc & Hd & Hcr & Hdr).
  do 4 (split; [assumption|]).
  destruct (add_ok_pre _ _ _ _ _ _ H) as (Hi & Hs & Ho).
  destruct (add_ok dflt st self other Hi Hs Ho)
    as (s0 & e0 & s1 & e1 & st1 & idb0 & st2 & idb & _ & _ & _ & _ & E).
  rewrite H in E. injection E as _ ->. simpl. auto.
Qed.

(** The [time_float] key of [__add__] is a nearest hundredth of a second of the row's
    time, an even one on a tie, and it is monotone in the time. *)
Theorem time_float_nearest : forall r r',
  (2 * Z.abs (100 * time r - MAX_FINE * time_float r) <= MAX_FINE)%Z /\
  ((2 * Z.abs (100 * time r - MAX_FINE * time_float r) = MAX_FINE)%Z ->
     Z.even (time_float r) = true) /\
  ((time r <= time r')%Z -> (time_float r <= time_float r')%Z).
Proof.
  intros r r'. split; [|split]; [| |apply time_float_mono].
  - unfold time_float, round_half_even.
    set (a := (100 * time r)%Z). unfold MAX_FINE.
    pose proof (Z.div_mod a 65536 ltac:(lia)) as D. pose proof (Z.mod_pos_bound a 65536 ltac:(lia)) as M.
    destruct (Z.ltb_spec (2 * (a mod 65536)) 65536); [lia|].
    destruct (Z.ltb_spec 65536 (2 * (a mod 65536))); [lia|].
    destruct (Z.even (a / 65536)); lia.
  - unfold time_float, round_half_even.
    set (a := (100 * time r)%Z). unfold MAX_FINE.
    pose proof (Z.div_mod a 65536 ltac:(lia)) as D. pose proof (Z.mod_pos_bound a 65536 ltac:(lia)) as M.
    destruct (Z.ltb_spec (2 * (a mod 65536)) 65536); [lia|].
    destruct (Z.ltb_spec 65536 (2 * (a mod 65536))); [lia|].
    destruct (Z.even (a / 65536)) eqn:Ev; intros _; [exact Ev|].
    rewrite Z.even_add, Ev. reflexivity.
Qed.

(** [scet_timerange] fails exactly on an empty Data table; on time-sorted Data with
    non-negative [timedel] it covers the time of every row. *)
Theorem scet_timerange_rows : forall d,
  (scet_timerange d = None <-> d = []) /\
  (Sorted Z.le (map time d) -> (forall r, In r d -> (0 <= timedel r)%Z) ->
   forall s e, scet_timerange d = Some (s, e) ->
   forall r, In r d -> (s <= inject_Z (time r) <= e)%Q).
Proof.
  intros d. split.
  - destruct d as [|r0 t]; simpl; split; intros H; try reflexivity; discriminate.
  - intros Hs Hd s e E. apply scet_timerange_bounds; assumption.
Qed.

(** [get_additional_header_keywords] returns [None] until a keyword is added, and then
    all added keywords in the order they were added. *)
Theorem additional_header_keywords_accumulate : forall K (kws : list K),
  (forall l, get_additional_header_keywords (fold_left add_additional_header_keywords kws (Some l))
             = Some (l ++ kws)) /\
  get_additional_header_keywords (fold_left add_additional_header_keywords kws None) =
    match kws with [] => None | _ :: _ => Some kws end.
Proof.
  intros K kws.
  assert (H : forall l, fold_left add_additional_header_keywords kws (Some l) = Some (l ++ kws)).
  { induction kws as [|k t IH]; intros l; cbn [fold_left]; [rewrite app_nil_r; reflexivity|].
    change (add_additional_header_keywords (Some l) k) with (Some (l ++ [k])).
    rewrite IH, <- app_assoc. reflexivity. }
  split; [exact H|]. destruct kws as [|k t]; [reflexivity|]. cbn [fold_left].
  change (add_additional_header_keywords None k) with (Some ([] ++ [k])). apply H.
Qed.

(** ** Witnesses of the further properties *)

Lemma from_level0_parent_files_witness :
  control_of Inputs.l0_store Inputs.l0_product <> [] /\
  match from_level0 (fun d => d) DefaultProduct Inputs.l0_store Inputs.l0_product "l1.fits" with
  | Err _ => False
  | Ok (st', l1) =>
  product_parent st' l1 = ["l1.fits"%string] /\
  product_parent st' Inputs.l0_product = ["l1.fits"%string] /\
  find_parent_files string (fun root dir p => [(root ++ "/" ++ dir ++ "/" ++ p)%string]) st' l1 "fits"
    = ["fits/L0/l1.fits"%string] /\
  (p_level Inputs.l0_product = Some L0 ->
   find_parent_files string (fun root dir p => [(root ++ "/" ++ dir ++ "/" ++ p)%string]) st'
     Inputs.l0_product "fits" = ["fits/LB/l1.fits"%string])
  end.
Proof.
  assert (H : control_of Inputs.l0_store Inputs.l0_product <> []) by (vm_compute; discriminate).
  split; [exact H|].
  destruct (from_level0 (fun d => d) DefaultProduct Inputs.l0_store Inputs.l0_product "l1.fits")
    as [[st' l1]|e] eqn:E; [|vm_compute in E; discriminate E].
  exact (from_level0_parent_files string (fun root dir p => [(root ++ "/" ++ dir ++ "/" ++ p)%string])
           (fun d => d) DefaultProduct Inputs.l0_store Inputs.l0_product "l1.fits" "fits" st' l1
           H E).
Defined.

Lemma from_level0_then_level1_no_header_witness :
  match from_level0_obj (fun d => d) DefaultProduct Inputs.l0_store
          (mkHProduct (header:=unit) Inputs.l0_product (Some tt)) "l1.fits" with
  | Err _ => False
  | Ok (st1, l1) =>
      let '(st2, r) := from_level1_obj (fun h => h) DefaultProduct st1 l1 (PPath "l1" "l2.fits") in
      r = Err ValueError /\
      control_of st2 Inputs.l0_product =
        map (fun c => set_parent c "l2.fits") (control_of Inputs.l0_store Inputs.l0_product)
  end.
Proof.
  destruct (from_level0_obj (fun d => d) DefaultProduct Inputs.l0_store
              (mkHProduct (header:=unit) Inputs.l0_product (Some tt)) "l1.fits")
    as [[st1 l1]|e] eqn:E; [|vm_compute in E; discriminate E].
  exact (from_level0_then_level1_no_header unit (fun h => h) (fun d => d) DefaultProduct
           Inputs.l0_store (mkHProduct Inputs.l0_product (Some tt)) "l1.fits"
           (PPath "l1" "l2.fits") st1 l1 E).
Defined.

Lemma split_to_files_days_increasing_witness :
  exists st' outs,
    split_to_files Inputs.sceday_of Inputs.utc_date_of Inputs.sorted_store Inputs.l1_product
      = Ok (st', outs) /\
    StronglySorted Z.lt (map fst outs).
Proof.
  destruct (split_to_files Inputs.sceday_of Inputs.utc_date_of Inputs.sorted_store
              Inputs.l1_product) as [[st' outs]|e] eqn:E; [|vm_compute in E; discriminate E].
  exists st', outs. split; [reflexivity|].
  exact (split_to_files_days_increasing _ _ _ _ _ _ E).
Defined.

Lemma split_fragment_rows_witness :
  exists st' outs,
    split_to_files Inputs.sceday_of Inputs.utc_date_of Inputs.gap_store Inputs.gap_product
      = Ok (st', outs) /\
    forall o, In o outs ->
      map payload (data_of st' (snd o)) =
      map payload (filter (fun r => Z.eqb (day_key Inputs.sceday_of Inputs.utc_date_of
                                             (p_level Inputs.gap_product) r) (fst o))
                     (data_of Inputs.gap_store Inputs.gap_product)).
Proof.
  destruct (split_to_files Inputs.sceday_of Inputs.utc_date_of Inputs.gap_store
              Inputs.gap_product) as [[st' outs]|e] eqn:E; [|vm_compute in E; discriminate E].
  exists st', outs. split; [reflexivity|]. intros o Ho.
  exact (split_fragment_rows _ _ _ _ _ _ o E Ho).
Defined.

Lemma split_to_files_frame_witness :
  exists st' outs,
    split_to_files Inputs.sceday_of Inputs.utc_date_of Inputs.days3_store Inputs.days3_product
      = Ok (st', outs) /\
    (exists ec, controls st' = controls Inputs.days3_store ++ ec) /\
    (exists ed, datas st' = datas Inputs.days3_store ++ ed) /\
    ranges st' = ranges Inputs.days3_store /\
    map (fun o => control_ref (snd o)) outs =
      seq (length (controls Inputs.days3_store)) (length outs) /\
    map (fun o => data_ref (snd o)) outs = seq (length (datas Inputs.days3_store)) (length outs) /\
    (forall o, In o outs ->
       idb_versions (snd o) = idb_versions Inputs.days3_product /\
       p_class (snd o) = p_class Inputs.days3_product /\
       p_level (snd o) = p_level Inputs.days3_product /\
       service_type (snd o) = service_type Inputs.days3_product /\
       service_subtype (snd o) = service_subtype Inputs.days3_product /\
       ssid (snd o) = ssid Inputs.days3_product).
Proof.
  destruct (split_to_files Inputs.sceday_of Inputs.utc_date_of Inputs.days3_store
              Inputs.days3_product) as [[st' outs]|e] eqn:E; [|vm_compute in E; discriminate E].
  exists st', outs. split; [reflexivity|].
  exact (split_to_files_frame _ _ _ _ _ _ E).
Defined.

Lemma add_commutes_payload_witness :
  exists st1 AB st2 BA,
    add (mkRange 0 0) Inputs.merge_store Inputs.prod_a Inputs.prod_b = Ok (st1, AB) /\
    add (mkRange 0 0) Inputs.merge_store Inputs.prod_b Inputs.prod_a = Ok (st2, BA) /\
    map payload (data_of st1 AB) = map payload (data_of st2 BA).
Proof.
  apply add_commutes_payload.
  - reflexivity.
  - vm_compute. discriminate.
  - vm_compute. discriminate.
  - left. apply keys_disjoint_check. reflexivity.
Defined.

Lemma add_result_frame_witness :
  exists st' R,
    add (mkRange 0 0) Inputs.merge_store Inputs.prod_a Inputs.prod_b = Ok (st', R) /\
    (exists c, controls st' = controls Inputs.merge_store ++ [c]) /\
    (exists d, datas st' = datas Inputs.merge_store ++ [d]) /\
    control_ref R = length (controls Inputs.merge_store) /\
    data_ref R = length (datas Inputs.merge_store) /\
    p_class R = p_class Inputs.prod_a /\ p_level R = p_level Inputs.prod_a /\
    service_type R = service_type Inputs.prod_a /\
    service_subtype R = service_subtype Inputs.prod_a /\ ssid R = ssid Inputs.prod_a.
Proof.
  destruct (add (mkRange 0 0) Inputs.merge_store Inputs.prod_a Inputs.prod_b)
    as [[st' R]|e] eqn:E; [|vm_compute in E; discriminate E].
  exists st', R. split; [reflexivity|].
  exact (add_result_frame _ _ _ _ _ _ E).
Defined.

(** * Properties of the processing pipeline command line *)

Module CliFacts.
Import Cli.

Lemma name_inj : forall a b, name a = name b -> a = b.
Proof. intros [] []; simpl; intros E; first [reflexivity | discriminate E]. Qed.

Lemma in_members : forall e, In e members.
Proof. intros []; simpl; tauto. Qed.

(** [ProductLevel.from_str] inverts [name], is case-insensitive on ASCII letters, and
    falls back to [TM] for a label that names no level. *)
Theorem from_str_spec :
  (forall e, from_str (name e) = e) /\
  (forall label e, from_str label = e <->
     upper label = name e \/ (e = TM /\ forall e', upper label <> name e')).
Proof.
  split; [intros []; reflexivity|].
  intros label e. unfold from_str.
  destruct (find (fun e0 => String.eqb (name e0) (upper label)) members) as [e0|] eqn:Ef.
  - apply find_some in Ef as [_ Ee]. apply String.eqb_eq in Ee.
    split.
    + intros <-. left. symmetry. exact Ee.
    + intros [E|[_ H]]; [apply name_inj; congruence|].
      exfalso. apply (H e0). symmetry. exact Ee.
  - split.
    + intros <-. right. split; [reflexivity|]. intros e' E.
      pose proof (find_none _ _ Ef e' (in_members e')) as H. simpl in H.
      rewrite E, String.eqb_refl in H. discriminate H.
    + intros [E|[-> _]]; [|reflexivity].
      pose proof (find_none _ _ Ef e (in_members e)) as H. simpl in H.
      rewrite E, String.eqb_refl in H. discriminate H.
Qed.

Section MainFacts.
Variables file tmfile exn : Type.
Variable input_files : list file.
Variable packet_file_in_input_files : result exn bool.
Variable process_tmtc_flags : list bool -> result exn (list file).
Variable soc_get_files : option string -> list tmfile.
Variable process_tmtc_to_levelbinary : list tmfile -> list file.
Variable rglob : ProductLevel -> string -> list file.
Variable process_fits_files : ProductLevel -> list file -> list file.

Local Abbreviation tm := (tm_stage file tmfile exn input_files packet_file_in_input_files
                           process_tmtc_flags soc_get_files process_tmtc_to_levelbinary).
Local Abbreviation run := (main file tmfile exn input_files packet_file_in_input_files
                             process_tmtc_flags soc_get_files process_tmtc_to_levelbinary
                             rglob process_fits_files).

Lemma tm_stage_raised : forall start s e, tm start s = Err e -> exists x, e = Raised x.
Proof.
  intros start s e H. unfold tm_stage in H.
  destruct (value LB >=? value start)%Z; [|discriminate H].
  destruct (has_input_files _ _); [|discriminate H].
  destruct packet_file_in_input_files as [b|x]; [|injection H as <-; eauto].
  destruct (process_tmtc_flags [b]) as [out|x]; [discriminate H|injection H as <-; eauto].
Qed.

(** [main] raises [ValueError] exactly when the end level is below the start level. *)
Theorem main_value_error : forall start end_ filter,
  run start end_ filter = Err ValueError <-> (value end_ < value start)%Z.
Proof.
  intros start end_ filter. unfold main.
  destruct (Z.ltb_spec (value end_) (value start)) as [Hlt|Hge];
    split; intros Hm; try lia; try reflexivity.
  destruct (tm start (mkState _ [] filter [])) as [s|e] eqn:T; [discriminate Hm|].
  injection Hm as ->. destruct (tm_stage_raised _ _ _ T) as [x E]. discriminate E.
Qed.

(** With start level at most the end level, and either no input files or a start level
    above LB, [main] reads TM exactly when it starts at TM or LB, and runs the FITS
    processing of exactly the levels L0, L1, L2 that lie between the start and end
    level. *)
Theorem main_stages : forall start end_ filter,
  (value start <= value end_)%Z ->
  (input_files = [] \/ (value LB < value start)%Z) ->
  exists s, run start end_ filter = Ok s /\
    (In TmtcToLevelBinary (calls _ s) <-> (value start <= value LB)%Z) /\
    (forall l, In (ProcessFitsFiles l) (calls _ s) <->
               In l [L0; L1; L2] /\ (value start <= value l <= value end_)%Z).
Proof.
  intros start end_ filter Hle Hin.
  destruct input_files as [|f fs]; [clear Hin|destruct Hin as [Hin|Hin]; [discriminate Hin|]];
  destruct start, end_; simpl in Hle; try (simpl in Hin); try lia;
  eexists; (split; [vm_compute; reflexivity|]);
  (split; [vm_compute; split; intros; intuition (try congruence; try discriminate)|]);
  intros []; vm_compute; intuition (try congruence; try discriminate).
Qed.

(** Under the same conditions: without input files, [main] globs the directory of the
    level below the start level with the filter (default [*.fits]) exactly when it
    starts at L0, L1 or L2, and asks the SOC manager with the filter exactly when it
    starts at TM or LB; with input files it does neither. *)
Theorem main_inputs : forall start end_ filter,
  (value start <= value end_)%Z ->
  (input_files = [] \/ (value LB < value start)%Z) ->
  exists s, run start end_ filter = Ok s /\
    (forall d pat, In (Rglob d pat) (calls _ s) <->
       input_files = [] /\ pat = filter_or_fits filter /\
       In (start, d) [(L0, LB); (L1, L0); (L2, L1)]) /\
    (forall f, In (SocGetFiles f) (calls _ s) <->
       input_files = [] /\ f = filter /\ (value start <= value LB)%Z).
Proof.
  intros start end_ filter Hle Hin.
  destruct input_files as [|f fs]; [clear Hin|destruct Hin as [Hin|Hin]; [discriminate Hin|]];
  destruct start, end_; simpl in Hle; try (simpl in Hin); try lia;
  eexists; (split; [cbv -[filter_or_fits]; reflexivity|]); cbv -[filter_or_fits];
  split; intros; split; intros H;
  repeat match goal with
         | H : _ \/ _ |- _ => destruct H
         | H : _ /\ _ |- _ => destruct H
         | H : Rglob _ _ = Rglob _ _ |- _ => injection H as <- <-
         | H : SocGetFiles _ = SocGetFiles _ |- _ => injection H as <-
         | H : (_, _) = (_, _) |- _ => inversion H; clear H; subst
         end;
  subst; intuition (try congruence; try discriminate).
Qed.

(** Under the same conditions, [main] prints the files of the levels from the one
    below the start level up to the end level, level by level; each processing stage
    gets as input exactly the files recorded for the level below it. *)
Theorem main_output : forall start end_ filter,
  (value start <= value end_)%Z ->
  (input_files = [] \/ (value LB < value start)%Z) ->
  exists s, run start end_ filter = Ok s /\
    map fst (processed_files _ s) =
      List.filter (fun l => (value start - 1 <=? value l)%Z && (value l <=? Z.max (value end_) (value LB))%Z)
        [LB; L0; L1; L2] /\
    output _ s = concat (map (fun l => pf_get _ (processed_files _ s) l) (map fst (processed_files _ s))) /\
    (forall l b, In (l, b) [(L0, LB); (L1, L0); (L2, L1)] -> In (ProcessFitsFiles l) (calls _ s) ->
       pf_get _ (processed_files _ s) l = process_fits_files l (pf_get _ (processed_files _ s) b)).
Proof.
  intros start end_ filter Hle Hin.
  destruct input_files as [|f fs]; [clear Hin|destruct Hin as [Hin|Hin]; [discriminate Hin|]];
  destruct start, end_; simpl in Hle; try (simpl in Hin); try lia;
  eexists; (split; [vm_compute; reflexivity|]);
  (split; [vm_compute; reflexivity|]);
  (split; [unfold output, pf_get; vm_compute; rewrite ?app_nil_r; reflexivity|]);
  intros l b Hl Hc; vm_compute in Hl, Hc;
  repeat match goal with
         | H : _ \/ _ |- _ => destruct H
         | H : (_, _) = (_, _) |- _ => injection H as <- <-
         end; try contradiction; try discriminate;
  vm_compute; rewrite ?app_nil_r; reflexivity.
Qed.

(** With input files and a start level of TM or LB, the TM stage hands
    [process_tmtc_to_levelbinary] the one-element list [[SOCPacketFile(f) in
    input_files]] built from the list file object, never the input files: [main] raises
    whatever building that list or that call raises, and otherwise the LB files are
    exactly that call's result. *)
Theorem main_input_files_tm_stage : forall start end_ filter,
  (value start <= value end_)%Z -> input_files <> [] -> (value start <= value LB)%Z ->
  match packet_file_in_input_files with
  | Err e => run start end_ filter = Err (Raised e)
  | Ok b =>
      match process_tmtc_flags [b] with
      | Err e => run start end_ filter = Err (Raised e)
      | Ok out => exists s, run start end_ filter = Ok s /\ pf_get _ (processed_files _ s) LB = out
      end
  end.
Proof.
  intros start end_ filter Hle Hne Hlb.
  destruct input_files as [|f fs]; [contradiction Hne; reflexivity|].
  destruct packet_file_in_input_files as [b|e].
  - destruct (process_tmtc_flags [b]) as [out|e] eqn:F;
      destruct start, end_; simpl in Hle, Hlb; try lia;
      unfold main, tm_stage; rewrite F; vm_compute;
      first [ eexists; split; reflexivity | reflexivity ].
  - destruct start, end_; simpl in Hle, Hlb; try lia; vm_compute; reflexivity.
Qed.
End MainFacts.

(** ** Witnesses: [stix-pipeline] from TM to L2 without input files *)

Local Abbreviation demo_main :=
  (main string string string [] (Ok true) (fun _ => Ok []) (fun _ => ["tm.xml"%string])
     (fun _ => ["lb.fits"%string]) (fun _ p => [p]) (fun _ fs => fs)).

Lemma main_stages_witness :
  (value TM <= value L2)%Z /\ (([] : list string) = [] \/ (value LB < value TM)%Z) /\
  exists s, demo_main TM L2 None = Ok s /\
    (In TmtcToLevelBinary (calls _ s) <-> (value TM <= value LB)%Z) /\
    (forall l, In (ProcessFitsFiles l) (calls _ s) <->
               In l [L0; L1; L2] /\ (value TM <= value l <= value L2)%Z).
Proof.
  assert (H : (value TM <= value L2)%Z) by (simpl; lia).
  assert (H' : ([] : list string) = [] \/ (value LB < value TM)%Z) by (left; reflexivity).
  split; [exact H|]. split; [exact H'|].
  exact (main_stages _ _ _ _ _ _ _ _ _ _ TM L2 None H H').
Defined.

Lemma main_inputs_witness :
  (value TM <= value L2)%Z /\ (([] : list string) = [] \/ (value LB < value TM)%Z) /\
  exists s, demo_main TM L2 None = Ok s /\
    (forall d pat, In (Rglob d pat) (calls _ s) <->
       ([] : list string) = [] /\ pat = filter_or_fits None /\
       In (TM, d) [(L0, LB); (L1, L0); (L2, L1)]) /\
    (forall f, In (SocGetFiles f) (calls _ s) <->
       ([] : list string) = [] /\ f = None /\ (value TM <= value LB)%Z).
Proof.
  assert (H : (value TM <= value L2)%Z) by (simpl; lia).
  assert (H' : ([] : list string) = [] \/ (value LB < value TM)%Z) by (left; reflexivity).
  split; [exact H|]. split; [exact H'|].
  exact (main_inputs _ _ _ _ _ _ _ _ _ _ TM L2 None H H').
Defined.

Lemma main_output_witness :
  (value TM <= value L2)%Z /\ (([] : list string) = [] \/ (value LB < value TM)%Z) /\
  exists s, demo_main TM L2 None = Ok s /\
    map fst (processed_files _ s) =
      filter (fun l => (value TM - 1 <=? value l)%Z && (value l <=? Z.max (value L2) (value LB))%Z)
        [LB; L0; L1; L2] /\
    output _ s = concat (map (fun l => pf_get _ (processed_files _ s) l) (map fst (processed_files _ s))) /\
    (forall l b, In (l, b) [(L0, LB); (L1, L0); (L2, L1)] -> In (ProcessFitsFiles l) (calls _ s) ->
       pf_get _ (processed_files _ s) l = pf_get _ (processed_files _ s) b).
Proof.
  assert (H : (value TM <= value L2)%Z) by (simpl; lia).
  assert (H' : ([] : list string) = [] \/ (value LB < value TM)%Z) by (left; reflexivity).
  split; [exact H|]. split; [exact H'|].
  exact (main_output _ _ _ _ _ _ _ _ _ _ TM L2 None H H').
Defined.

(** [stix-pipeline --input_files list.txt] from TM: the membership test yields
    [False] and [process_tmtc_to_levelbinary([False])] raises. *)
Lemma main_input_files_tm_stage_witness :
  (value TM <= value L2)%Z /\ ["in.bin"%string] <> [] /\ (value TM <= value LB)%Z /\
  main string string string ["in.bin"%string] (Ok false)
    (fun _ => Err "TypeError: 'bool' object is not a packet file"%string)
    (fun _ => ["tm.xml"%string]) (fun _ => ["lb.fits"%string]) (fun _ p => [p]) (fun _ fs => fs)
    TM L2 None = Err (Raised "TypeError: 'bool' object is not a packet file"%string).
Proof.
  assert (H1 : (value TM <= value L2)%Z) by (simpl; lia).
  assert (H2 : ["in.bin"%string] <> []) by discriminate.
  assert (H3 : (value TM <= value LB)%Z) by (simpl; lia).
  split; [exact H1|]. split; [exact H2|]. split; [exact H3|].
  exact (main_input_files_tm_stage string string string ["in.bin"%string] (Ok false)
           (fun _ => Err "TypeError: 'bool' object is not a packet file"%string)
           (fun _ => ["tm.xml"%string]) (fun _ => ["lb.fits"%string]) (fun _ p => [p])
           (fun _ fs => fs) TM L2 None H1 H2 H3).
Defined.

End CliFacts.
